(** * hapi-fundamental: the like counter, the ownership gate and the activity log

    A shallow embedding of the services of the repository that talk to the
    relational store (node-postgres [Pool]) and to the key-value cache
    (node-redis client):

    - [CacheService]        (services/redis/CacheService.js)
    - [AlbumLikesService]   (services/postgres/AlbumLikesService.js)
    - [PlaylistsService]    (services/postgres/PlaylistsService.js)
    - [Guide]               the copies of the last two printed in the
                            step-by-step build guide of the repository.

    Asynchronous methods become functions in a state-and-exception monad
    over a [World]: the tables of the store, the contents of the cache, a
    schedule of transport faults of the two network links, and the log of
    the calls that left the process. *)

From Stdlib Require Import DecimalString DecimalN.
From stdpp Require Import gmap strings list sorting.

Open Scope string_scope.

(** ** Exceptions *)

(** The values a method can reject with.  The first three are the classes
    of [src/exceptions]; [JsError] is a plain [new Error(msg)];
    [JsTypeError] and [JsSyntaxError] are raised by the runtime; [PgError]
    is the error object of node-postgres with its [constraint] field
    ([None] when the failure is not a constraint violation, such as a lost
    connection); [RedisError] is the rejection of a node-redis command
    whose connection is down. *)
Inductive error : Type :=
| InvariantError (msg : string)
| NotFoundError (msg : string)
| AuthorizationError (msg : string)
| JsError (msg : string)
| JsTypeError
| JsSyntaxError
| PgError (constraint : option string)
| RedisError.

Inductive Result (A : Type) : Type :=
| Ok (a : A)
| Throw (e : error).
Arguments Ok {A} a.
Arguments Throw {A} e.

(** ** Tables of the store *)

Record LikeRow := mkLike
  { like_id : string; like_user : string; like_album : string }.

Record Playlist := mkPlaylist
  { pl_name : string; pl_owner : string }.

Record Song := mkSong
  { song_title : string; song_performer : string }.

Record PlaylistSong := mkPlaylistSong
  { ps_id : string; ps_playlist : string; ps_song : string }.

Record Activity := mkActivity
  { act_id : string; act_playlist : string; act_song : string;
    act_user : string; act_action : string; act_time : string }.

(** Tables whose only key is the primary key [id] and that are read by id
    are finite maps from the id; tables that are filtered on other columns
    are lists of rows in insertion order.  [users] maps a user id to the
    username. *)
Record Db := mkDb
  { user_album_likes : list LikeRow;
    playlists : gmap string Playlist;
    songs : gmap string Song;
    users : gmap string string;
    playlist_songs : list PlaylistSong;
    playlist_song_activities : list Activity }.

(** ** The cache *)

(** A cache entry: the stored text and the seconds it still has to live
    ([None]: no expiry was set). *)
Abbreviation Redis := (gmap string (string * option N)).

(** ** Calls that leave the process *)

Inductive Query : Type :=
| SelectLike (userId albumId : string)
| InsertLike (id userId albumId : string)
| DeleteLike (userId albumId : string)
| CountLikes (albumId : string)
| SelectPlaylistOwner (playlistId : string)
| SelectPlaylist (playlistId : string)
| SelectPlaylistId (playlistId : string)
| SelectSongId (songId : string)
| DeletePlaylist (playlistId : string)
| InsertPlaylistSong (id playlistId songId : string)
| DeletePlaylistSong (playlistId songId : string)
| InsertActivity (id playlistId songId userId action time : string)
| SelectActivities (playlistId : string).

Inductive Call : Type :=
| PgQuery (q : Query)
| RedisGet (key : string)
| RedisSet (key value : string) (ex : N)
| RedisDel (key : string).

(** A statement that can change a table. *)
Definition is_write (q : Query) : bool :=
  match q with
  | InsertLike _ _ _ | DeleteLike _ _ | DeletePlaylist _
  | InsertPlaylistSong _ _ _ | DeletePlaylistSong _ _
  | InsertActivity _ _ _ _ _ _ => true
  | _ => false
  end.

Definition is_store_write (c : Call) : bool :=
  match c with PgQuery q => is_write q | _ => false end.

(** ** The world and the monad of asynchronous methods *)

(** [faults] is the schedule of the network: each call to the store or
    to the cache consumes its head, and [true] means that this call fails
    in transport; an exhausted schedule means that no further call
    fails.  [log] lists the calls issued so far, oldest first. *)
Record World := mkWorld
  { db : Db; redis : Redis; faults : list bool; log : list Call }.

Definition M (A : Type) : Type := World -> Result A * World.

Definition ret {A} (a : A) : M A := fun w => (Ok a, w).
Definition throw {A} (e : error) : M A := fun w => (Throw e, w).

Definition bind {A B} (m : M A) (k : A -> M B) : M B :=
  fun w => match m w with
           | (Ok a, w') => k a w'
           | (Throw e, w') => (Throw e, w')
           end.

(** [try { m } catch (error) { h error }] *)
Definition try_catch {A} (m : M A) (h : error -> M A) : M A :=
  fun w => match m w with
           | (Ok a, w') => (Ok a, w')
           | (Throw e, w') => h e w'
           end.

Notation "x <- m ;; k" := (bind m (fun x => k))
  (at level 100, m at next level, right associativity).
Notation "m ;;; k" := (bind m (fun _ => k))
  (at level 100, right associativity).

(** The world once call [c] has been sent: the call is logged and one
    entry of the fault schedule is consumed. *)
Definition issue (c : Call) (w : World) : World :=
  {| db := db w; redis := redis w;
     faults := tail (faults w); log := log w ++ [c] |}.

(** The next call fails in transport. *)
Definition link_down (w : World) : bool :=
  if head (faults w) is Some true then true else false.

(** One network call: send it and either reject with [e] or go on. *)
Definition network {A} (c : Call) (e : error) (run : World -> Result A * World)
  : M A :=
  fun w => if link_down w then (Throw e, issue c w) else run (issue c w).

(** No call fails in transport from now on. *)
Definition calm (w : World) : Prop := Forall (fun b => b = false) (faults w).

(** [this._pool.query(q)]: the statement [run] is executed on the tables
    unless the connection fails. *)
Definition pool_query {A} (q : Query) (run : Db -> Result A * Db) : M A :=
  network (PgQuery q) (PgError None)
    (fun w => let '(r, d) := run (db w) in
              (r, {| db := d; redis := redis w;
                     faults := faults w; log := log w |})).

(** A command of the node-redis client. *)
Definition redis_command {A} (c : Call) (run : Redis -> A * Redis) : M A :=
  network c RedisError
    (fun w => let '(a, r) := run (redis w) in
              (Ok a, {| db := db w; redis := r;
                        faults := faults w; log := log w |})).

(** Time passing in the cache server: every entry with an expiry loses
    [secs] seconds and is dropped when none is left. *)
Definition redis_elapse (secs : N) (r : Redis) : Redis :=
  omap (fun '(v, ttl) =>
          match ttl with
          | None => Some (v, None)
          | Some t => if (t <=? secs)%N then None else Some (v, Some (t - secs)%N)
          end) r.

(** ** JSON texts of counts *)

(** [JSON.stringify(count)] for a count: its decimal numeral. *)
Definition JSON_stringify (n : N) : string :=
  NilZero.string_of_uint (N.to_uint n).

(** [JSON.parse(text)] on the texts this service stores under its keys:
    a JSON integer literal without sign (["0"], or digits that do not
    start with [0]) parses to its value.  Every other text is answered
    with [None], the [SyntaxError] that [JSON.parse] raises on a text
    that is not JSON; JSON documents other than such integers are
    outside this model. *)
Definition JSON_parse (s : string) : option N :=
  match NilZero.uint_of_string s with
  | Some d => if decide (NilZero.string_of_uint (N.to_uint (N.of_uint d)) = s)
              then Some (N.of_uint d) else None
  | None => None
  end.

(** ** CacheService (services/redis/CacheService.js) *)

Module CacheService.

(** [async set(key, value, expirationInSeconds = 3600)] *)
Definition default_expiration : N := 3600.

Definition set (key value : string) (expirationInSeconds : N) : M unit :=
  redis_command (RedisSet key value expirationInSeconds)
    (fun r => (tt, <[key := (value, Some expirationInSeconds)]> r)).

(** [async get(key)]: [null] from the client becomes
    [Error('Cache not found')]. *)
Definition get (key : string) : M string :=
  result <- redis_command (RedisGet key) (fun r => (fst <$> r !! key, r)) ;;
  match result with
  | None => throw (JsError "Cache not found")
  | Some v => ret v
  end.

(** [async delete(key)]: the number of keys removed. *)
Definition delete (key : string) : M N :=
  redis_command (RedisDel key)
    (fun r => (if r !! key is Some _ then 1%N else 0%N, base.delete key r)).

End CacheService.

(** ** Statements on [user_album_likes] *)

(** The rows of one (user, album) pair. *)
Definition likes_of (userId albumId : string) (d : Db) : list LikeRow :=
  filter (fun r => like_user r = userId /\ like_album r = albumId)
         (user_album_likes d).

Definition with_likes (l : list LikeRow) (d : Db) : Db :=
  {| user_album_likes := l; playlists := playlists d; songs := songs d;
     users := users d; playlist_songs := playlist_songs d;
     playlist_song_activities := playlist_song_activities d |}.

(** [SELECT id FROM user_album_likes WHERE user_id = $1 AND album_id = $2] *)
Definition select_like (userId albumId : string) (d : Db)
  : Result (list string) * Db :=
  (Ok (like_id <$> likes_of userId albumId d), d).

(** Modelled from the spec: the migration that creates [user_album_likes]
    is not among the sources.  The spec makes a like unique per (subject,
    resource) pair and leaves conflict detection to a uniqueness
    constraint of the store; its name, [unique_user_and_album], is the
    one the build guide's [addLike] tests for.  The statement is
    [INSERT INTO user_album_likes (id, user_id, album_id) VALUES ($1, $2, $3)
    RETURNING id]. *)
Definition insert_like (id userId albumId : string) (d : Db)
  : Result (list string) * Db :=
  match likes_of userId albumId d with
  | [] => (Ok [id],
           with_likes (user_album_likes d ++ [mkLike id userId albumId]) d)
  | _ :: _ => (Throw (PgError (Some "unique_user_and_album")), d)
  end.

(** [DELETE FROM user_album_likes WHERE user_id = $1 AND album_id = $2
    RETURNING id] *)
Definition delete_like (userId albumId : string) (d : Db)
  : Result (list string) * Db :=
  (Ok (like_id <$> likes_of userId albumId d),
   with_likes
     (filter (fun r => ~ (like_user r = userId /\ like_album r = albumId))
             (user_album_likes d)) d).

(** The number of rows of [user_album_likes] for an album. *)
Definition like_count (albumId : string) (d : Db) : N :=
  N.of_nat (length (filter (fun r => like_album r = albumId)
                           (user_album_likes d))).

(** The aggregate [SELECT COUNT AS count FROM user_album_likes WHERE
    album_id = $1], already read with [parseInt(rows[0].count, 10)]: the
    store prints the count as a decimal numeral, which [parseInt] reads
    back. *)
Definition count_likes (albumId : string) (d : Db) : Result N * Db :=
  (Ok (like_count albumId d), d).

(** ** AlbumLikesService (services/postgres/AlbumLikesService.js) *)

Module AlbumLikesService.

Definition cache_key (albumId : string) : string := "album-likes:" ++ albumId.

(** The part of [addLike] up to the answer of [checkQuery]. *)
Definition addLike_check (userId albumId : string) : M unit :=
  rows <- pool_query (SelectLike userId albumId) (select_like userId albumId) ;;
  (* const { rowCount: exists } = ...; if (exists) *)
  if decide (length rows = 0) then ret tt
  else throw (InvariantError "Anda hanya boleh like sekali").

(** The part of [addLike] after the check; [nid] is the value of
    [nanoid(16)]. *)
Definition addLike_insert (nid userId albumId : string) : M string :=
  let id := "like-" ++ nid in
  rows <- pool_query (InsertLike id userId albumId)
                     (insert_like id userId albumId) ;;
  match rows with
  | [] => throw JsTypeError                         (* result.rows[0].id *)
  | id0 :: _ =>
      if decide (id0 = "")                          (* !result.rows[0].id *)
      then throw (InvariantError "Like gagal ditambahkan")
      else
        CacheService.delete (cache_key albumId) ;;;
        ret id0
  end.

Definition addLike (nid userId albumId : string) : M string :=
  addLike_check userId albumId ;;;
  addLike_insert nid userId albumId.

Definition deleteLike (userId albumId : string) : M unit :=
  rows <- pool_query (DeleteLike userId albumId) (delete_like userId albumId) ;;
  if decide (length rows = 0)                       (* !result.rows.length *)
  then throw (NotFoundError "Anda belum like album ini")
  else
    CacheService.delete (cache_key albumId) ;;;
    ret tt.

(** The value [countLikes] resolves to: [{ count, fromCache }]. *)
Record Count := mkCount { count : N; fromCache : bool }.

(** The body of the [catch] block of [countLikes]. *)
Definition countLikes_catch (albumId : string) : M Count :=
  n <- pool_query (CountLikes albumId) (count_likes albumId) ;;
  CacheService.set (cache_key albumId) (JSON_stringify n)
                   CacheService.default_expiration ;;;
  ret (mkCount n false).

Definition countLikes (albumId : string) : M Count :=
  try_catch
    (result <- CacheService.get (cache_key albumId) ;;
     match JSON_parse result with
     | Some n => ret (mkCount n true)
     | None => throw JsSyntaxError
     end)
    (fun _ => countLikes_catch albumId).

End AlbumLikesService.

(** ** Statements on the playlist tables *)

(** The schema is the one of the migrations printed in the build guide:
    [playlists], [songs] and [users] have the primary key [id];
    [playlist_songs] has the primary key [id], the constraint
    [unique_playlist_id_and_song_id] on (playlist_id, song_id) and foreign
    keys to [playlists] and [songs]; [playlist_song_activities] has the
    primary key [id] and a foreign key to [playlists]; the foreign keys
    to [playlists] are [ON DELETE CASCADE]. *)

Definition with_playlist_songs (l : list PlaylistSong) (d : Db) : Db :=
  {| user_album_likes := user_album_likes d; playlists := playlists d;
     songs := songs d; users := users d; playlist_songs := l;
     playlist_song_activities := playlist_song_activities d |}.

Definition with_activities (l : list Activity) (d : Db) : Db :=
  {| user_album_likes := user_album_likes d; playlists := playlists d;
     songs := songs d; users := users d; playlist_songs := playlist_songs d;
     playlist_song_activities := l |}.

(** [SELECT owner FROM playlists WHERE id = $1] and the guide's
    [SELECT * FROM playlists WHERE id = $1]: the rows, of which the
    callers read [owner]. *)
Definition select_playlist (playlistId : string) (d : Db)
  : Result (list Playlist) * Db :=
  (Ok (option_list (playlists d !! playlistId)), d).

(** [SELECT id FROM playlists WHERE id = $1] *)
Definition select_playlist_id (playlistId : string) (d : Db)
  : Result (list string) * Db :=
  (Ok (if playlists d !! playlistId is Some _ then [playlistId] else []), d).

(** [SELECT id FROM songs WHERE id = $1] *)
Definition select_song_id (songId : string) (d : Db)
  : Result (list string) * Db :=
  (Ok (if songs d !! songId is Some _ then [songId] else []), d).

(** [DELETE FROM playlists WHERE id = $1 RETURNING id], with the cascade
    to the rows that reference the playlist. *)
Definition delete_playlist (playlistId : string) (d : Db)
  : Result (list string) * Db :=
  match playlists d !! playlistId with
  | None => (Ok [], d)
  | Some _ =>
      (Ok [playlistId],
       {| user_album_likes := user_album_likes d;
          playlists := delete playlistId (playlists d);
          songs := songs d; users := users d;
          playlist_songs :=
            filter (fun r => ps_playlist r <> playlistId) (playlist_songs d);
          playlist_song_activities :=
            filter (fun a => act_playlist a <> playlistId)
                   (playlist_song_activities d) |})
  end.

Definition members_of (playlistId songId : string) (d : Db)
  : list PlaylistSong :=
  filter (fun r => ps_playlist r = playlistId /\ ps_song r = songId)
         (playlist_songs d).

(** [INSERT INTO playlist_songs VALUES($1, $2, $3) RETURNING id]: the
    unique indexes are checked when the row is inserted, the foreign keys
    afterwards. *)
Definition insert_playlist_song (id playlistId songId : string) (d : Db)
  : Result (list string) * Db :=
  if decide (id ∈ ps_id <$> playlist_songs d)
  then (Throw (PgError (Some "playlist_songs_pkey")), d)
  else if decide (members_of playlistId songId d = [])
  then
    match playlists d !! playlistId, songs d !! songId with
    | None, _ =>
        (Throw (PgError (Some "fk_playlist_songs.playlist_id_playlists.id")), d)
    | Some _, None =>
        (Throw (PgError (Some "fk_playlist_songs.song_id_songs.id")), d)
    | Some _, Some _ =>
        (Ok [id],
         with_playlist_songs
           (playlist_songs d ++ [mkPlaylistSong id playlistId songId]) d)
    end
  else (Throw (PgError (Some "unique_playlist_id_and_song_id")), d).

(** [DELETE FROM playlist_songs WHERE playlist_id = $1 AND song_id = $2
    RETURNING id] *)
Definition delete_playlist_song (playlistId songId : string) (d : Db)
  : Result (list string) * Db :=
  (Ok (ps_id <$> members_of playlistId songId d),
   with_playlist_songs
     (filter (fun r => ~ (ps_playlist r = playlistId /\ ps_song r = songId))
             (playlist_songs d)) d).

(** [INSERT INTO playlist_song_activities VALUES($1, $2, $3, $4, $5, $6)
    RETURNING id] *)
Definition insert_activity (a : Activity) (d : Db) : Result (list string) * Db :=
  if decide (act_id a ∈ act_id <$> playlist_song_activities d)
  then (Throw (PgError (Some "playlist_song_activities_pkey")), d)
  else if playlists d !! act_playlist a is Some _
  then (Ok [act_id a], with_activities (playlist_song_activities d ++ [a]) d)
  else (Throw (PgError
                 (Some "fk_playlist_song_activities.playlist_id_playlists.id")),
        d).

(** A row of the activity listing: [username, title, action, time]. *)
Record ActivityRow := mkActivityRow
  { row_username : string; row_title : string;
    row_action : string; row_time : string }.

(** [ORDER BY playlist_song_activities.time ASC]: [time] is a [TEXT]
    column, compared as text. *)
Definition time_le (x y : ActivityRow) : Prop :=
  String.leb (row_time x) (row_time y) = true.

#[global] Instance time_le_dec x y : Decision (time_le x y).
Proof. unfold time_le. apply _. Defined.

(** [JOIN users ON users.id = user_id JOIN songs ON songs.id = song_id]
    of one activity: inner joins, so a row comes out only when both the
    user and the song are found. *)
Definition join_activity (d : Db) (a : Activity) : option ActivityRow :=
  match users d !! act_user a, songs d !! act_song a with
  | Some username, Some s =>
      Some (mkActivityRow username (song_title s) (act_action a) (act_time a))
  | _, _ => None
  end.

Definition joined_activities (playlistId : string) (d : Db) : list ActivityRow :=
  omap (join_activity d)
       (filter (fun a => act_playlist a = playlistId)
               (playlist_song_activities d)).

(** The [SELECT ... WHERE playlist_id = $1 ORDER BY time ASC] of
    [getActivities]. *)
Definition select_activities (playlistId : string) (d : Db)
  : Result (list ActivityRow) * Db :=
  (Ok (merge_sort time_le (joined_activities playlistId d)), d).

(** ** PlaylistsService (services/postgres/PlaylistsService.js) *)

Module PlaylistsService.

Definition verifyPlaylistOwner (playlistId userId : string) : M unit :=
  rows <- pool_query (SelectPlaylistOwner playlistId)
                     (select_playlist playlistId) ;;
  match rows with
  | [] => throw (NotFoundError "Playlist tidak ditemukan")
  | playlist :: _ =>
      if decide (pl_owner playlist <> userId)       (* owner !== userId *)
      then throw (AuthorizationError "Anda tidak berhak mengakses playlist ini")
      else ret tt
  end.

Definition deletePlaylistById (playlistId userId : string) : M unit :=
  verifyPlaylistOwner playlistId userId ;;;
  rows <- pool_query (DeletePlaylist playlistId) (delete_playlist playlistId) ;;
  if decide (length rows = 0)
  then throw (NotFoundError "Playlist gagal dihapus, Id tidak ditemukan")
  else ret tt.

(** [nid] is the value of [nanoid(16)]. *)
Definition addPlaylistSong (nid playlistId songId userId : string) : M string :=
  verifyPlaylistOwner playlistId userId ;;;
  playlistCheck <- pool_query (SelectPlaylistId playlistId)
                              (select_playlist_id playlistId) ;;
  if decide (length playlistCheck = 0)
  then throw (NotFoundError "Playlist tidak ditemukan")
  else
    songCheck <- pool_query (SelectSongId songId) (select_song_id songId) ;;
    if decide (length songCheck = 0)
    then throw (NotFoundError "Lagu tidak ditemukan")
    else
      let id := "playlist-song-" ++ nid in
      rows <- pool_query (InsertPlaylistSong id playlistId songId)
                         (insert_playlist_song id playlistId songId) ;;
      match rows with
      | [] => throw JsTypeError
      | id0 :: _ =>
          if decide (id0 = "")
          then throw (InvariantError "Lagu gagal ditambahkan ke playlist")
          else ret id0
      end.

Definition deletePlaylistSong (playlistId songId userId : string) : M unit :=
  verifyPlaylistOwner playlistId userId ;;;
  rows <- pool_query (DeletePlaylistSong playlistId songId)
                     (delete_playlist_song playlistId songId) ;;
  if decide (length rows = 0)
  then throw (NotFoundError "Lagu tidak ditemukan dalam playlist")
  else ret tt.

End PlaylistsService.

(** ** The services as the build guide prints them *)

(** [error.constraint] of a caught value: only the error objects of the
    store carry the field. *)
Definition constraint_of (e : error) : option string :=
  match e with PgError c => c | _ => None end.

Module Guide.

Module AlbumLikesService.

Definition cache_key (albumId : string) : string := "likes:" ++ albumId.

Definition addLike (nid albumId userId : string) : M string :=
  let id := "like-" ++ nid in
  try_catch
    (rows <- pool_query (InsertLike id userId albumId)
                        (insert_like id userId albumId) ;;
     match rows with
     | [] => throw JsTypeError
     | id0 :: _ =>
         if decide (id0 = "")
         then throw (InvariantError "Failed to like album")
         else
           CacheService.delete (cache_key albumId) ;;;
           ret id0
     end)
    (fun e =>
       if decide (constraint_of e = Some "unique_user_and_album")
       then throw (InvariantError "You already liked this album")
       else throw e).

End AlbumLikesService.

Module PlaylistsService.

Definition verifyPlaylistOwner (id owner : string) : M unit :=
  rows <- pool_query (SelectPlaylist id) (select_playlist id) ;;
  match rows with
  | [] => throw (NotFoundError "Playlist not found")
  | playlist :: _ =>
      if decide (pl_owner playlist <> owner)
      then throw (AuthorizationError
                    "You are not authorized to access this resource")
      else ret tt
  end.

Definition addSongToPlaylist (nid playlistId songId : string) : M string :=
  let id := "playlistsong-" ++ nid in
  songResult <- pool_query (SelectSongId songId) (select_song_id songId) ;;
  if decide (length songResult = 0)
  then throw (NotFoundError "Song not found")
  else
    try_catch
      (rows <- pool_query (InsertPlaylistSong id playlistId songId)
                          (insert_playlist_song id playlistId songId) ;;
       match rows with
       | [] => throw JsTypeError
       | id0 :: _ => ret id0
       end)
      (fun e =>
         if decide (constraint_of e = Some "unique_playlist_id_and_song_id")
         then throw (InvariantError "Song already exists in playlist")
         else throw e).

(** [nid] is the value of [nanoid(16)] and [time] the value of
    [new Date().toISOString()] at the call. *)
Definition addActivity (nid time playlistId songId userId action : string)
  : M unit :=
  let id := "activity-" ++ nid in
  pool_query (InsertActivity id playlistId songId userId action time)
             (insert_activity
                (mkActivity id playlistId songId userId action time)) ;;;
  ret tt.

Definition getActivities (playlistId : string) : M (list ActivityRow) :=
  pool_query (SelectActivities playlistId) (select_activities playlistId).

End PlaylistsService.

End Guide.

(** ** Outcomes by error kind *)

(** The error kinds of the services: [NotFoundError], [AuthorizationError]
    and, for a violated uniqueness rule, [InvariantError]. *)
Definition fails_not_found {A} (r : Result A) : Prop :=
  exists msg, r = Throw (NotFoundError msg).

Definition fails_unauthorized {A} (r : Result A) : Prop :=
  exists msg, r = Throw (AuthorizationError msg).

Definition fails_conflict {A} (r : Result A) : Prop :=
  exists msg, r = Throw (InvariantError msg).

(** The calls a run has added to the log of [w]. *)
Definition issued_since (w w' : World) : list Call :=
  drop (length (log w)) (log w').

(** ** Sample worlds *)

(** One playlist of user-1 with one song in it, and a second song. *)
Definition sample_db : Db :=
  {| user_album_likes := [];
     playlists := {[ "playlist-1" := mkPlaylist "Road trip" "user-1" ]};
     songs := {[ "song-1" := mkSong "Blue" "Joni" ]}
              ∪ {[ "song-2" := mkSong "Hejira" "Joni" ]};
     users := {[ "user-1" := "alice" ]} ∪ {[ "user-2" := "bob" ]};
     playlist_songs := [mkPlaylistSong "playlist-song-A" "playlist-1" "song-1"];
     playlist_song_activities := [] |}.

Definition sample_world : World :=
  {| db := sample_db; redis := ∅; faults := []; log := [] |}.

(** The same store once user-1 has liked album-1, with the count of
    album-1 cached before that like. *)
Definition liked_world : World :=
  {| db := with_likes [mkLike "like-A" "user-1" "album-1"] sample_db;
     redis := {[ "album-likes:album-1" := ("0", Some 1200%N) ]};
     faults := []; log := [] |}.

(** ** The ownership gate in front of an operation *)

(** [op] on playlist [playlistId] for user [userId] is gated: from every
    world, the first call it sends is the owner query of
    [verifyPlaylistOwner], and when the gate rejects, [op] rejects with
    the gate's error in the gate's final world, having sent nothing else
    and with the tables as they were; so a write to the store is sent
    only after the gate has resolved. *)
Definition gated_by {A} (playlistId userId : string) (op : M A) : Prop :=
  forall w,
    (exists rest,
        issued_since w (snd (op w))
        = PgQuery (SelectPlaylistOwner playlistId) :: rest) /\
    (forall e w',
        PlaylistsService.verifyPlaylistOwner playlistId userId w = (Throw e, w') ->
        op w = (Throw e, w') /\ db w' = db w /\
        issued_since w w' = [PgQuery (SelectPlaylistOwner playlistId)]) /\
    (forall c,
        c ∈ issued_since w (snd (op w)) -> is_store_write c = true ->
        fst (PlaylistsService.verifyPlaylistOwner playlistId userId w) = Ok tt).

(** A computation only ever adds calls to the log. *)
Definition extends_log {A} (m : M A) : Prop :=
  forall w, exists calls, log (snd (m w)) = (log w ++ calls)%list.

(** The liked store seen through a cache link that fails on the next
    call, and through a working link to an empty cache. *)
Definition lookup_fails_world : World :=
  {| db := db liked_world; redis := redis liked_world;
     faults := [true]; log := [] |}.

Definition lookup_misses_world : World :=
  {| db := db liked_world; redis := ∅; faults := []; log := [] |}.

(** ** Sequences of appends to the activity log *)

(** The arguments of one [addActivity] call, with the values the call
    draws from [nanoid] and from the clock. *)
Record Append := mkAppend
  { ap_nid : string; ap_time : string; ap_playlist : string;
    ap_song : string; ap_user : string; ap_action : string }.

(** The record an append writes. *)
Definition activity_of (c : Append) : Activity :=
  mkActivity ("activity-" ++ ap_nid c) (ap_playlist c) (ap_song c)
             (ap_user c) (ap_action c) (ap_time c).

(** Runs the calls one after the other, whatever their outcomes, and
    collects the records of the calls that resolved. *)
Fixpoint run_appends (calls : list Append) (w : World) : list Activity * World :=
  match calls with
  | [] => ([], w)
  | c :: rest =>
      let '(r, w1) :=
        Guide.PlaylistsService.addActivity
          (ap_nid c) (ap_time c) (ap_playlist c) (ap_song c) (ap_user c)
          (ap_action c) w in
      let '(appended, w2) := run_appends rest w1 in
      (if r is Ok _ then activity_of c :: appended else appended, w2)
  end.

(** The rows the listing of [playlistId] shows for the records [acts]:
    the records of the playlist whose user and song are found. *)
Definition listed (playlistId : string) (d : Db) (acts : list Activity)
  : list ActivityRow :=
  omap (join_activity d) (filter (fun a => act_playlist a = playlistId) acts).

(** Two appends to playlist-1 whose clock readings arrive in reverse
    order, then one for a song that has no row. *)
Definition sample_appends : list Append :=
  [ mkAppend "X" "2024-05-01T10:00:07.120Z" "playlist-1" "song-1" "user-1" "add";
    mkAppend "Y" "2024-05-01T10:00:03.440Z" "playlist-1" "song-2" "user-2" "add";
    mkAppend "Z" "2024-05-01T10:00:09.000Z" "playlist-1" "song-404" "user-1" "add" ].

(** ** SongService, the in-memory one *)

(** The service keeps its songs in the array [this._songs]; its methods
    are synchronous, so each is a function from the array to the outcome
    and the array afterwards. *)
Module SongService.

Record StoredSong := mkStoredSong
  { sg_id : string; sg_title : string; sg_year : Z; sg_genre : string;
    sg_performer : string; sg_duration : option Z; sg_albumId : option string }.

(** The argument object of [addSong] and [editSongById]; a missing
    [duration] or [albumId] takes the default [null], here [None]. *)
Record Payload := mkPayload
  { p_title : string; p_year : Z; p_genre : string; p_performer : string;
    p_duration : option Z; p_albumId : option string }.

Definition Method (A : Type) : Type :=
  list StoredSong -> Result A * list StoredSong.

(** [nid] is the value of [nanoid(16)]. *)
Definition addSong (nid : string) (p : Payload) : Method string :=
  fun _songs =>
    let id := "song-" ++ nid in
    let newSong :=
      mkStoredSong id (p_title p) (p_year p) (p_genre p) (p_performer p)
                   (p_duration p) (p_albumId p) in
    let pushed := (_songs ++ [newSong])%list in
    let isSuccess :=
      bool_decide (0 < length (filter (fun song => sg_id song = id) pushed)) in
    if negb isSuccess
    then (Throw (InvariantError "Lagu gagal ditambahkan"), pushed)
    else (Ok id, pushed).

Definition getSongs : Method (list StoredSong) :=
  fun _songs => (Ok _songs, _songs).

Definition getSongById (id : string) : Method StoredSong :=
  fun _songs =>
    match filter (fun song => sg_id song = id) _songs with
    | [] => (Throw (NotFoundError "Lagu tidak ditemukan"), _songs)
    | song :: _ => (Ok song, _songs)
    end.

(** [{ ...this._songs[index], title, year, genre, performer, duration,
    albumId }] *)
Definition overwrite (old : StoredSong) (p : Payload) : StoredSong :=
  mkStoredSong (sg_id old) (p_title p) (p_year p) (p_genre p) (p_performer p)
               (p_duration p) (p_albumId p).

Definition editSongById (id : string) (p : Payload) : Method unit :=
  fun _songs =>
    match list_find (fun song => sg_id song = id) _songs with
    | None =>
        (Throw (NotFoundError "Gagal memperbaharui lagu. Id tidak ditemukan"),
         _songs)
    | Some (index, old) => (Ok tt, <[index := overwrite old p]> _songs)
    end.

Definition deleteSongById (id : string) : Method unit :=
  fun _songs =>
    match list_find (fun song => sg_id song = id) _songs with
    | None =>
        (Throw (NotFoundError "Lagu gagal dihapus. Id tidak ditemukan"), _songs)
    | Some (index, _) => (Ok tt, delete index _songs)      (* splice(index, 1) *)
    end.

(** The ids of the stored songs, in order. *)
Definition ids (_songs : list StoredSong) : list string := sg_id <$> _songs.

End SongService.

(** ** The rest of the guide's services *)

Module GuideRest.

Module AlbumLikesService.

Definition deleteLike (albumId userId : string) : M unit :=
  rows <- pool_query (DeleteLike userId albumId) (delete_like userId albumId) ;;
  if decide (length rows = 0)
  then throw (InvariantError "Failed to unlike album")
  else
    CacheService.delete (Guide.AlbumLikesService.cache_key albumId) ;;;
    ret tt.

Definition checkUserLikedAlbum (albumId userId : string) : M bool :=
  rows <- pool_query (SelectLike userId albumId) (select_like userId albumId) ;;
  ret (bool_decide (0 < length rows)).

End AlbumLikesService.

Module PlaylistsService.

Definition deletePlaylistById (id : string) : M unit :=
  rows <- pool_query (DeletePlaylist id) (delete_playlist id) ;;
  if decide (length rows = 0)
  then throw (NotFoundError "Playlist not found")
  else ret tt.

Definition deleteSongFromPlaylist (playlistId songId : string) : M unit :=
  rows <- pool_query (DeletePlaylistSong playlistId songId)
                     (delete_playlist_song playlistId songId) ;;
  if decide (length rows = 0)
  then throw (InvariantError "Failed to delete song from playlist")
  else ret tt.

End PlaylistsService.

End GuideRest.

(** ** AlbumLikesHandler (api/likes/handler.js) *)

(** What a handler hands back to the framework: the body, the status
    code when the handler set one with [response.code], and the headers
    it added. *)
Record Reply := mkReply
  { status : string; message : option string; data_likes : option N;
    code : option nat; headers : list (string * string) }.

Section LikesHandler.

(** The handler is built from two services; the album service is not
    among the sources, so its [getAlbumById] stays a parameter. *)
Context {Album : Type} (getAlbumById : string -> M Album).

(** [albumId] is [request.params.id], [userId] is
    [request.auth.credentials.id] and [nid] the value [addLike] draws
    from [nanoid]. *)
Definition postLikeHandler (nid albumId userId : string) : M Reply :=
  getAlbumById albumId ;;;
  AlbumLikesService.addLike nid userId albumId ;;;
  ret {| status := "success"; message := Some "Berhasil menambahkan like";
         data_likes := None; code := Some 201; headers := [] |}.

Definition deleteLikeHandler (albumId userId : string) : M Reply :=
  getAlbumById albumId ;;;
  AlbumLikesService.deleteLike userId albumId ;;;
  ret {| status := "success"; message := Some "Berhasil menghapus like";
         data_likes := None; code := None; headers := [] |}.

Definition getLikesHandler (albumId : string) : M Reply :=
  getAlbumById albumId ;;;
  result <- AlbumLikesService.countLikes albumId ;;
  ret {| status := "success"; message := None;
         data_likes := Some (AlbumLikesService.count result);
         code := Some 200;
         headers := if AlbumLikesService.fromCache result
                    then [("X-Data-Source", "cache")] else [] |}.

End LikesHandler.

(** ** The cache as a mirror of the store *)


(** Likes of one album by a list of users, one call after the other;
    each user comes with the value [nanoid] gives to that call. *)
Fixpoint like_all (calls : list (string * string)) (albumId : string) (w : World)
  : list (Result string) * World :=
  match calls with
  | [] => ([], w)
  | (nid, userId) :: rest =>
      let '(r, w1) := AlbumLikesService.addLike nid userId albumId w in
      let '(rs, w2) := like_all rest albumId w1 in
      (r :: rs, w2)
  end.

(** The sample store with a count text cached for album-1, seen through
    a link whose third call fails. *)
Definition third_call_fails_world : World :=
  {| db := db sample_world;
     redis := {[ "album-likes:album-1" := ("0", Some 1200%N) ]};
     faults := [false; false; true]; log := [] |}.

(** Three stored songs of the in-memory service. *)
Definition sample_songs : list SongService.StoredSong :=
  [ SongService.mkStoredSong "song-A" "Blue" 1971 "folk" "Joni" (Some 183%Z) None;
    SongService.mkStoredSong "song-B" "Hejira" 1976 "folk" "Joni" None
                             (Some "album-1");
    SongService.mkStoredSong "song-C" "Amelia" 1976 "folk" "Joni" None None ].

Definition sample_payload : SongService.Payload :=
  SongService.mkPayload "River" 1971 "folk" "Joni" (Some 244%Z) (Some "album-2").

(** * Properties *)

(** ** The network primitives *)

Section Steps.
Context {A : Type}.
Implicit Types (w : World) (c : Call) (q : Query).

Lemma calm_link_up w : calm w -> link_down w = false.
Proof.
  unfold calm, link_down. destruct (faults w) as [|b fs]; simpl; [done|].
  intros Hc. apply Forall_cons in Hc as [-> _]. done.
Qed.

Lemma calm_issue c w : calm w -> calm (issue c w).
Proof.
  unfold calm, issue; simpl. destruct (faults w); simpl; [done|].
  intros Hc. by apply Forall_cons in Hc as [_ ?].
Qed.

Lemma pool_query_up q (run : Db -> Result A * Db) w :
  link_down w = false ->
  pool_query q run w =
    (fst (run (db w)),
     {| db := snd (run (db w)); redis := redis w;
        faults := tail (faults w); log := log w ++ [PgQuery q] |}).
Proof.
  intros Hup. unfold pool_query, network. rewrite Hup. simpl.
  by destruct (run (db w)).
Qed.

Lemma pool_query_down q (run : Db -> Result A * Db) w :
  link_down w = true ->
  pool_query q run w = (Throw (PgError None), issue (PgQuery q) w).
Proof. intros Hdn. unfold pool_query, network. by rewrite Hdn. Qed.

Lemma redis_command_up c (run : Redis -> A * Redis) w :
  link_down w = false ->
  redis_command c run w =
    (Ok (fst (run (redis w))),
     {| db := db w; redis := snd (run (redis w));
        faults := tail (faults w); log := log w ++ [c] |}).
Proof.
  intros Hup. unfold redis_command, network. rewrite Hup. simpl.
  by destruct (run (redis w)).
Qed.

Lemma redis_command_down c (run : Redis -> A * Redis) w :
  link_down w = true ->
  redis_command c run w = (Throw RedisError, issue c w).
Proof. intros Hdn. unfold redis_command, network. by rewrite Hdn. Qed.

End Steps.

Lemma JSON_parse_stringify n : JSON_parse (JSON_stringify n) = Some n.
Proof.
  unfold JSON_parse, JSON_stringify.
  assert (Hnn : N.to_uint n <> Decimal.Nil).
  { destruct n as [|p]; [discriminate|]. simpl.
    intros H. by apply (DecimalPos.Unsigned.to_uint_nonnil p). }
  rewrite (NilZero.usu _ Hnn), DecimalN.Unsigned.of_to.
  by rewrite decide_True.
Qed.

(** ** The ownership gate *)

Section Gate.

Lemma verifyPlaylistOwner_up r s w :
  link_down w = false ->
  PlaylistsService.verifyPlaylistOwner r s w =
    (match playlists (db w) !! r with
     | None => Throw (NotFoundError "Playlist tidak ditemukan")
     | Some p =>
         if decide (pl_owner p = s) then Ok tt
         else Throw (AuthorizationError
                       "Anda tidak berhak mengakses playlist ini")
     end, issue (PgQuery (SelectPlaylistOwner r)) w).
Proof.
  intros Hup. unfold PlaylistsService.verifyPlaylistOwner, bind.
  rewrite pool_query_up by done. simpl.
  destruct (playlists (db w) !! r) as [p|]; simpl; [|done].
  destruct w; repeat case_decide; done.
Qed.

Lemma verifyPlaylistOwner_down r s w :
  link_down w = true ->
  PlaylistsService.verifyPlaylistOwner r s w =
    (Throw (PgError None), issue (PgQuery (SelectPlaylistOwner r)) w).
Proof.
  intros Hdn. unfold PlaylistsService.verifyPlaylistOwner, bind.
  by rewrite pool_query_down.
Qed.

Lemma guide_verifyPlaylistOwner_up r s w :
  link_down w = false ->
  Guide.PlaylistsService.verifyPlaylistOwner r s w =
    (match playlists (db w) !! r with
     | None => Throw (NotFoundError "Playlist not found")
     | Some p =>
         if decide (pl_owner p = s) then Ok tt
         else Throw (AuthorizationError
                       "You are not authorized to access this resource")
     end, issue (PgQuery (SelectPlaylist r)) w).
Proof.
  intros Hup. unfold Guide.PlaylistsService.verifyPlaylistOwner, bind.
  rewrite pool_query_up by done. simpl.
  destruct (playlists (db w) !! r) as [p|]; simpl; [|done].
  destruct w; repeat case_decide; done.
Qed.

End Gate.

(** C6.  When the store answers the query, [verifyPlaylistOwner r s]
    rejects with [NotFoundError] if no playlist has id [r], rejects with
    [AuthorizationError] if the playlist's owner is not [s], and resolves
    if the owner is [s]; in every case neither the tables nor the cache
    change.  This holds for the service and for the guide's copy. *)
Theorem verifyPlaylistOwner_gate (r s : string) (w : World) :
  link_down w = false ->
  let out := PlaylistsService.verifyPlaylistOwner r s w in
  let out' := Guide.PlaylistsService.verifyPlaylistOwner r s w in
  (playlists (db w) !! r = None ->
     fails_not_found (fst out) /\ fails_not_found (fst out')) /\
  (forall p, playlists (db w) !! r = Some p -> pl_owner p <> s ->
     fails_unauthorized (fst out) /\ fails_unauthorized (fst out')) /\
  (forall p, playlists (db w) !! r = Some p -> pl_owner p = s ->
     fst out = Ok tt /\ fst out' = Ok tt) /\
  (db (snd out) = db w /\ redis (snd out) = redis w) /\
  (db (snd out') = db w /\ redis (snd out') = redis w).
Proof.
  intros Hup out out'. subst out out'.
  rewrite verifyPlaylistOwner_up, guide_verifyPlaylistOwner_up by done.
  simpl. split_and!; try done.
  - intros ->. split; eexists; reflexivity.
  - intros p -> Hne. rewrite !decide_False by done.
    split; eexists; reflexivity.
  - intros p -> Heq. by rewrite !decide_True.
Qed.

Lemma verifyPlaylistOwner_gate_witness :
  fst (PlaylistsService.verifyPlaylistOwner "playlist-1" "user-1" sample_world)
    = Ok tt /\
  fails_unauthorized
    (fst (PlaylistsService.verifyPlaylistOwner "playlist-1" "user-2" sample_world)) /\
  fails_not_found
    (fst (PlaylistsService.verifyPlaylistOwner "playlist-9" "user-1" sample_world)).
Proof.
  split; [|split].
  - refine (proj1 (proj1 (proj2 (proj2
      (verifyPlaylistOwner_gate "playlist-1" "user-1" sample_world _)))
      (mkPlaylist "Road trip" "user-1") _ _)); reflexivity.
  - refine (proj1 (proj1 (proj2
      (verifyPlaylistOwner_gate "playlist-1" "user-2" sample_world _))
      (mkPlaylist "Road trip" "user-1") _ _)); [reflexivity..|discriminate].
  - refine (proj1 (proj1
      (verifyPlaylistOwner_gate "playlist-9" "user-1" sample_world _) _));
      reflexivity.
Defined.

(** ** Every method only appends to the log *)

Create HintDb extends.

Section Extends.
Context {A B : Type}.

Lemma extends_ret (a : A) : extends_log (ret a).
Proof. intros w. exists []. by rewrite app_nil_r. Qed.

Lemma extends_throw e : extends_log (@throw A e).
Proof. intros w. exists []. by rewrite app_nil_r. Qed.

Lemma extends_bind (m : M A) (k : A -> M B) :
  extends_log m -> (forall a, extends_log (k a)) -> extends_log (bind m k).
Proof.
  intros Hm Hk w. unfold bind. destruct (Hm w) as [l1 Hl1].
  destruct (m w) as [[a|e] w1]; simpl in *.
  - destruct (Hk a w1) as [l2 Hl2]. exists (l1 ++ l2)%list.
    by rewrite Hl2, Hl1, app_assoc.
  - by exists l1.
Qed.

Lemma extends_try_catch (m : M A) (h : error -> M A) :
  extends_log m -> (forall e, extends_log (h e)) -> extends_log (try_catch m h).
Proof.
  intros Hm Hh w. unfold try_catch. destruct (Hm w) as [l1 Hl1].
  destruct (m w) as [[a|e] w1]; simpl in *.
  - by exists l1.
  - destruct (Hh e w1) as [l2 Hl2]. exists (l1 ++ l2)%list.
    by rewrite Hl2, Hl1, app_assoc.
Qed.

Lemma extends_pool_query q (run : Db -> Result A * Db) :
  extends_log (pool_query q run).
Proof.
  intros w. exists [PgQuery q]. unfold pool_query, network.
  destruct (link_down w); simpl; [done|]. by destruct (run (db w)).
Qed.

Lemma extends_redis_command c (run : Redis -> A * Redis) :
  extends_log (redis_command c run).
Proof.
  intros w. exists [c]. unfold redis_command, network.
  destruct (link_down w); simpl; [done|]. by destruct (run (redis w)).
Qed.

End Extends.

#[global] Hint Resolve extends_ret extends_throw extends_pool_query
  extends_redis_command : extends.

(** Walks through the binds, handlers and branches of a method. *)
Ltac solve_extends :=
  repeat first
    [ solve [auto with extends]
    | apply extends_bind; [|intros ?]
    | apply extends_try_catch; [|intros ?]
    | match goal with
      | |- extends_log (if ?b then _ else _) => destruct b
      | |- extends_log (match ?x with _ => _ end) => destruct x
      end ].

Lemma issued_since_app w w' calls :
  log w' = (log w ++ calls)%list -> issued_since w w' = calls.
Proof. intros Hl. unfold issued_since. by rewrite Hl, drop_app_length. Qed.

(** ** Mutations of a playlist pass the gate *)

Section Gated.
Import PlaylistsService.

Lemma verifyPlaylistOwner_world p u w :
  snd (verifyPlaylistOwner p u w) = issue (PgQuery (SelectPlaylistOwner p)) w.
Proof.
  destruct (link_down w) eqn:Hl.
  - by rewrite verifyPlaylistOwner_down.
  - by rewrite verifyPlaylistOwner_up.
Qed.

Lemma gated_bind {A} p u (k : M A) :
  extends_log k -> gated_by p u (verifyPlaylistOwner p u ;;; k).
Proof.
  intros Hk w. pose proof (verifyPlaylistOwner_world p u w) as Hw.
  unfold bind. destruct (verifyPlaylistOwner p u w) as [[[]|e] w1];
    simpl in Hw; subst w1.
  - split_and!; [|intros ? ? [=]|done].
    destruct (Hk (issue (PgQuery (SelectPlaylistOwner p)) w)) as [l Hl].
    exists l. apply issued_since_app. rewrite Hl. simpl.
    by rewrite <- app_assoc.
  - assert (Hsent : issued_since w (issue (PgQuery (SelectPlaylistOwner p)) w)
                    = [PgQuery (SelectPlaylistOwner p)])
      by (by apply issued_since_app).
    split_and!.
    + by exists [].
    + by intros e' w' [= <- <-].
    + cbn [snd]. rewrite Hsent. intros c Hc Hwrite.
      apply list_elem_of_singleton in Hc as ->. discriminate Hwrite.
Qed.

End Gated.

(** C7.  [deletePlaylistById], [addPlaylistSong] and [deletePlaylistSong]
    are gated by [verifyPlaylistOwner]: the owner query is the first call
    each of them sends, so it precedes every write, and when the gate
    rejects the operation rejects with the same error without sending
    another call and without changing a table. *)
Theorem playlist_mutations_gated (nid p s u : string) :
  gated_by p u (PlaylistsService.deletePlaylistById p u) /\
  gated_by p u (PlaylistsService.addPlaylistSong nid p s u) /\
  gated_by p u (PlaylistsService.deletePlaylistSong p s u).
Proof.
  split_and!; apply gated_bind; solve_extends.
Qed.

(** user-2 does not own playlist-1: the delete is rejected by the gate
    and the store keeps the playlist and its songs. *)
Lemma playlist_mutations_gated_witness :
  PlaylistsService.deletePlaylistById "playlist-1" "user-2" sample_world
  = (Throw (AuthorizationError "Anda tidak berhak mengakses playlist ini"),
     issue (PgQuery (SelectPlaylistOwner "playlist-1")) sample_world).
Proof.
  destruct (playlist_mutations_gated "" "playlist-1" "" "user-2")
    as (Hdelete & _ & _).
  destruct (Hdelete sample_world) as (_ & Hrejected & _).
  exact (proj1 (Hrejected _ _ eq_refl)).
Defined.

(** The owner's delete goes through and cascades to the memberships. *)
Example owner_deletes_playlist :
  let out := PlaylistsService.deletePlaylistById "playlist-1" "user-1" sample_world in
  fst out = Ok tt /\
  playlists (db (snd out)) = ∅ /\ playlist_songs (db (snd out)) = [] /\
  log (snd out)
  = [PgQuery (SelectPlaylistOwner "playlist-1"); PgQuery (DeletePlaylist "playlist-1")].
Proof. cbv zeta. split_and!; reflexivity. Qed.

(** ** The like relation and its counter *)

Section Likes.
Import AlbumLikesService.
Implicit Types (u a nid : string) (w : World) (d : Db).

Lemma with_likes_same d : with_likes (user_album_likes d) d = d.
Proof. by destruct d. Qed.

Lemma filter_none_keeps_all {X} (P : X -> Prop) `{!forall x, Decision (P x)}
      (l : list X) :
  filter P l = [] -> filter (fun x => ~ P x) l = l.
Proof.
  induction l as [|x l IH]; [done|].
  rewrite !filter_cons. destruct (decide (P x)) as [Hp|Hp]; [done|].
  intros Hnone. rewrite decide_True by done. f_equal. by apply IH.
Qed.

Lemma delete_like_absent u a d :
  likes_of u a d = [] -> snd (delete_like u a d) = d.
Proof.
  unfold delete_like, likes_of. simpl. intros Hnone.
  rewrite filter_none_keeps_all by done. apply with_likes_same.
Qed.

Lemma delete_like_gone u a d :
  likes_of u a (snd (delete_like u a d)) = [].
Proof.
  unfold delete_like, likes_of. simpl.
  induction (user_album_likes d) as [|r l IH]; [done|].
  rewrite filter_cons.
  destruct (decide (~ (like_user r = u /\ like_album r = a))) as [Hm|Hm].
  - rewrite filter_cons, decide_False by done. done.
  - done.
Qed.

Lemma addLike_check_up u a w :
  link_down w = false ->
  addLike_check u a w =
    (if decide (likes_of u a (db w) = []) then Ok tt
     else Throw (InvariantError "Anda hanya boleh like sekali"),
     issue (PgQuery (SelectLike u a)) w).
Proof.
  intros Hup. unfold addLike_check, bind. rewrite pool_query_up by done.
  simpl. destruct (likes_of u a (db w)); simpl; by destruct w.
Qed.

Lemma addLike_check_down u a w :
  link_down w = true ->
  addLike_check u a w = (Throw (PgError None), issue (PgQuery (SelectLike u a)) w).
Proof.
  intros Hdn. unfold addLike_check, bind. by rewrite pool_query_down.
Qed.

(** The insert phase from a world without the relation. *)
Lemma addLike_insert_fresh nid u a w :
  link_down w = false -> likes_of u a (db w) = [] ->
  let id := "like-" ++ nid in
  let w1 :=
    {| db := with_likes (user_album_likes (db w) ++ [mkLike id u a]) (db w);
       redis := redis w; faults := tail (faults w);
       log := log w ++ [PgQuery (InsertLike id u a)] |} in
  addLike_insert nid u a w =
    if link_down w1 then (Throw RedisError, issue (RedisDel (cache_key a)) w1)
    else (Ok id,
          {| db := db w1; redis := delete (cache_key a) (redis w);
             faults := tail (faults w1);
             log := log w1 ++ [RedisDel (cache_key a)] |}).
Proof.
  intros Hup Hnone id w1. unfold addLike_insert, bind.
  rewrite pool_query_up by done. unfold insert_like. rewrite Hnone. simpl.
  fold w1. destruct (link_down w1) eqn:Hl.
  - unfold CacheService.delete. by rewrite redis_command_down.
  - unfold CacheService.delete. by rewrite redis_command_up.
Qed.

(** The insert phase when the relation is already stored. *)
Lemma addLike_insert_taken nid u a w :
  link_down w = false -> likes_of u a (db w) <> [] ->
  addLike_insert nid u a w =
    (Throw (PgError (Some "unique_user_and_album")),
     issue (PgQuery (InsertLike ("like-" ++ nid) u a)) w).
Proof.
  intros Hup Hsome. unfold addLike_insert, bind.
  rewrite pool_query_up by done. unfold insert_like.
  destruct (likes_of u a (db w)); [done|]. simpl. by destruct w.
Qed.

Lemma addLike_insert_down nid u a w :
  link_down w = true ->
  addLike_insert nid u a w =
    (Throw (PgError None), issue (PgQuery (InsertLike ("like-" ++ nid) u a)) w).
Proof.
  intros Hdn. unfold addLike_insert, bind. by rewrite pool_query_down.
Qed.

(** [addLike] unfolded along the answers of the network. *)
Lemma addLike_run nid u a w :
  let id := "like-" ++ nid in
  let w1 := issue (PgQuery (SelectLike u a)) w in
  let w2 :=
    {| db := with_likes (user_album_likes (db w) ++ [mkLike id u a]) (db w);
       redis := redis w; faults := tail (faults w1);
       log := log w1 ++ [PgQuery (InsertLike id u a)] |} in
  addLike nid u a w =
    if link_down w then (Throw (PgError None), w1)
    else if decide (likes_of u a (db w) = []) then
      if link_down w1
      then (Throw (PgError None), issue (PgQuery (InsertLike id u a)) w1)
      else if link_down w2
      then (Throw RedisError, issue (RedisDel (cache_key a)) w2)
      else (Ok id,
            {| db := db w2; redis := delete (cache_key a) (redis w);
               faults := tail (faults w2);
               log := log w2 ++ [RedisDel (cache_key a)] |})
    else (Throw (InvariantError "Anda hanya boleh like sekali"), w1).
Proof.
  intros id w1 w2. unfold addLike, bind.
  destruct (link_down w) eqn:Hw.
  { by rewrite addLike_check_down. }
  rewrite addLike_check_up by done. fold w1.
  destruct (decide (likes_of u a (db w) = [])) as [Hnone|Hsome]; [|done].
  destruct (link_down w1) eqn:Hw1.
  { by rewrite addLike_insert_down. }
  by rewrite addLike_insert_fresh.
Qed.

(** [deleteLike] unfolded along the answers of the network. *)
Lemma deleteLike_run u a w :
  let w1 :=
    {| db := snd (delete_like u a (db w)); redis := redis w;
       faults := tail (faults w);
       log := log w ++ [PgQuery (DeleteLike u a)] |} in
  deleteLike u a w =
    if link_down w
    then (Throw (PgError None), issue (PgQuery (DeleteLike u a)) w)
    else if decide (likes_of u a (db w) = [])
    then (Throw (NotFoundError "Anda belum like album ini"), w1)
    else if link_down w1
    then (Throw RedisError, issue (RedisDel (cache_key a)) w1)
    else (Ok tt,
          {| db := db w1; redis := delete (cache_key a) (redis w);
             faults := tail (faults w1);
             log := log w1 ++ [RedisDel (cache_key a)] |}).
Proof.
  intros w1. unfold deleteLike, bind.
  destruct (link_down w) eqn:Hw.
  { by rewrite pool_query_down. }
  rewrite pool_query_up by done. simpl. fold w1.
  destruct (decide (likes_of u a (db w) = [])) as [Hnone|Hsome].
  { by rewrite Hnone. }
  destruct (likes_of u a (db w)) as [|r l]; [done|]. simpl.
  unfold CacheService.delete.
  destruct (link_down w1) eqn:Hw1.
  - by rewrite redis_command_down.
  - by rewrite redis_command_up.
Qed.

(** The [catch] block of [countLikes] along the answers of the network. *)
Lemma countLikes_catch_run a w :
  let n := like_count a (db w) in
  let w1 := issue (PgQuery (CountLikes a)) w in
  let set := RedisSet (cache_key a) (JSON_stringify n) 3600 in
  countLikes_catch a w =
    if link_down w then (Throw (PgError None), w1)
    else if link_down w1 then (Throw RedisError, issue set w1)
    else (Ok (mkCount n false),
          {| db := db w;
             redis := <[cache_key a := (JSON_stringify n, Some 3600%N)]> (redis w);
             faults := tail (faults w1); log := log w1 ++ [set] |}).
Proof.
  intros n w1 set. unfold countLikes_catch, bind.
  destruct (link_down w) eqn:Hw.
  { by rewrite pool_query_down. }
  rewrite pool_query_up by done. simpl. fold n.
  unfold CacheService.set, CacheService.default_expiration.
  change (issue (PgQuery (CountLikes a)) w) with w1.
  destruct (link_down w1) eqn:Hw1.
  - rewrite redis_command_down; [done|]. by destruct w.
  - rewrite redis_command_up; [done|]. by destruct w.
Qed.

(** [countLikes] along the answer of the cache lookup. *)
Lemma countLikes_run a w :
  let w1 := issue (RedisGet (cache_key a)) w in
  countLikes a w =
    if link_down w then countLikes_catch a w1
    else match redis w !! cache_key a with
         | Some (v, _) =>
             match JSON_parse v with
             | Some n => (Ok (mkCount n true), w1)
             | None => countLikes_catch a w1
             end
         | None => countLikes_catch a w1
         end.
Proof.
  intros w1. unfold countLikes, try_catch, CacheService.get, bind.
  destruct (link_down w) eqn:Hw.
  { by rewrite redis_command_down. }
  rewrite redis_command_up by done. simpl.
  destruct (redis w !! cache_key a) as [[v ttl]|]; simpl.
  - destruct (JSON_parse v); simpl; by destruct w.
  - by destruct w.
Qed.

End Likes.

(** Reads the calls a run has added off the final log. *)
Ltac calc_issued :=
  unfold issued_since; cbn [fst snd db redis log issue];
  rewrite <- ?app_assoc; rewrite drop_app_length; cbn [app].

(** C10.  When [addLike] rejects with the conflict error, or [deleteLike]
    with [NotFoundError], the tables and the cache are as before and the
    only call sent is the statement that found the conflict or found
    nothing.  Whenever the cache delete was sent at all, the store write
    had already succeeded: for [addLike] the new row is stored, for
    [deleteLike] the relation was there and is gone. *)
Theorem failed_toggle_leaves_state (nid u a : string) (w : World) :
  let add := AlbumLikesService.addLike nid u a w in
  let del := AlbumLikesService.deleteLike u a w in
  let key := AlbumLikesService.cache_key a in
  (fails_conflict (fst add) ->
     db (snd add) = db w /\ redis (snd add) = redis w /\
     issued_since w (snd add) = [PgQuery (SelectLike u a)]) /\
  (fails_not_found (fst del) ->
     db (snd del) = db w /\ redis (snd del) = redis w /\
     issued_since w (snd del) = [PgQuery (DeleteLike u a)]) /\
  (RedisDel key ∈ issued_since w (snd add) ->
     issued_since w (snd add)
     = [PgQuery (SelectLike u a); PgQuery (InsertLike ("like-" ++ nid) u a);
        RedisDel key] /\
     likes_of u a (db w) = [] /\
     likes_of u a (db (snd add)) = [mkLike ("like-" ++ nid) u a]) /\
  (RedisDel key ∈ issued_since w (snd del) ->
     issued_since w (snd del) = [PgQuery (DeleteLike u a); RedisDel key] /\
     likes_of u a (db w) <> [] /\
     likes_of u a (db (snd del)) = []).
Proof.
  intros add del key. subst add del key.
  rewrite addLike_run, deleteLike_run.
  split_and!.
  - intros [msg Hmsg]. revert Hmsg.
    repeat case_match; cbn [fst snd]; intros [=]. by calc_issued.
  - intros [msg Hmsg]. revert Hmsg.
    repeat case_match; cbn [fst snd]; intros [=]. cbn [snd db redis].
    rewrite delete_like_absent by done. by calc_issued.
  - repeat case_match; calc_issued; intros Hin;
      try (by repeat (apply elem_of_cons in Hin as [[=]|Hin]);
              apply elem_of_nil in Hin).
    all: split_and!; try done.
    all: match goal with
         | H : likes_of _ _ _ = [] |- _ =>
             unfold likes_of in *; cbn [db user_album_likes with_likes];
             rewrite filter_app, H, filter_cons, decide_True by done
         end; done.
  - repeat case_match; calc_issued; intros Hin;
      try (by repeat (apply elem_of_cons in Hin as [[=]|Hin]);
              apply elem_of_nil in Hin).
    all: split_and!; try done.
    all: apply delete_like_gone.
Qed.

Lemma failed_toggle_leaves_state_witness :
  fails_conflict (fst (AlbumLikesService.addLike "B" "user-1" "album-1" liked_world))
  /\ db (snd (AlbumLikesService.addLike "B" "user-1" "album-1" liked_world))
     = db liked_world
  /\ redis (snd (AlbumLikesService.addLike "B" "user-1" "album-1" liked_world))
     = redis liked_world.
Proof.
  assert (Hc : fails_conflict
            (fst (AlbumLikesService.addLike "B" "user-1" "album-1" liked_world))).
  { eexists. reflexivity. }
  split; [exact Hc|].
  destruct (proj1 (failed_toggle_leaves_state "B" "user-1" "album-1" liked_world) Hc)
    as (Hdb & Hredis & _).
  by split.
Defined.

Section Invalidation.
Import AlbumLikesService.

Lemma countLikes_absent a w :
  redis w !! cache_key a = None ->
  countLikes a w = countLikes_catch a (issue (RedisGet (cache_key a)) w).
Proof.
  intros Habs. rewrite countLikes_run. rewrite Habs. by destruct (link_down w).
Qed.

Lemma countLikes_catch_ok a w c w' :
  countLikes_catch a w = (Ok c, w') -> c = mkCount (like_count a (db w)) false.
Proof.
  rewrite countLikes_catch_run. repeat case_match; by intros [= <- <-].
Qed.

Lemma countLikes_catch_calm a w :
  calm w ->
  exists w', countLikes_catch a w = (Ok (mkCount (like_count a (db w)) false), w').
Proof.
  intros Hc. rewrite countLikes_catch_run.
  rewrite !calm_link_up by auto using calm_issue. eauto.
Qed.

(** After a successful toggle the entry is gone and the delete was the
    last call sent. *)
Lemma toggle_ok_world nid u a w w' :
  (exists id, addLike nid u a w = (Ok id, w')) \/ deleteLike u a w = (Ok tt, w') ->
  redis w' !! cache_key a = None /\
  last (log w') = Some (RedisDel (cache_key a)).
Proof.
  intros [[id Hadd]|Hdel].
  - rewrite addLike_run in Hadd. revert Hadd.
    repeat case_match; intros [= <- <-]; cbn [redis log].
    split; [apply lookup_delete_eq | apply last_snoc].
  - rewrite deleteLike_run in Hdel. revert Hdel.
    repeat case_match; intros [= <-]; cbn [redis log].
    split; [apply lookup_delete_eq | apply last_snoc].
Qed.

End Invalidation.

(** C1.  When [addLike] or [deleteLike] resolves, the cache entry of the
    album has been deleted and that delete is the last call sent before
    the method returned.  The next [countLikes] of the album therefore
    never answers from the cache: whatever it resolves to is the count of
    the rows now stored, tagged computed, and it does resolve to that when
    the network does not fail. *)
Theorem toggle_invalidates_count (nid u a : string) (w w' : World) :
  (exists id, AlbumLikesService.addLike nid u a w = (Ok id, w')) \/
  AlbumLikesService.deleteLike u a w = (Ok tt, w') ->
  let fresh := AlbumLikesService.mkCount (like_count a (db w')) false in
  redis w' !! AlbumLikesService.cache_key a = None /\
  last (log w') = Some (RedisDel (AlbumLikesService.cache_key a)) /\
  (forall c w'', AlbumLikesService.countLikes a w' = (Ok c, w'') -> c = fresh) /\
  (calm w' -> exists w'', AlbumLikesService.countLikes a w' = (Ok fresh, w'')).
Proof.
  intros Hok fresh. destruct (toggle_ok_world _ _ _ _ _ Hok) as [Habs Hlast].
  split_and!; [done..| |].
  - intros c w''. rewrite countLikes_absent by done.
    intros Hc. by apply countLikes_catch_ok in Hc.
  - intros Hcalm. rewrite countLikes_absent by done.
    by apply (countLikes_catch_calm a (issue _ w')), calm_issue.
Qed.

Lemma toggle_invalidates_count_witness :
  exists w' w'',
    AlbumLikesService.addLike "B" "user-2" "album-1" liked_world
      = (Ok "like-B", w') /\
    AlbumLikesService.countLikes "album-1" w'
      = (Ok (AlbumLikesService.mkCount 2 false), w'').
Proof.
  eexists. 
  destruct (toggle_invalidates_count "B" "user-2" "album-1" liked_world
              (snd (AlbumLikesService.addLike "B" "user-2" "album-1" liked_world)))
    as (_ & _ & _ & Hnext).
  { left. eexists. reflexivity. }
  destruct Hnext as [w'' Hw'']. 
  { by repeat constructor. }
  exists w''. split; [reflexivity|]. exact Hw''.
Defined.

(** ** Liking twice *)

(** Calm worlds stay calm however many calls were sent. *)
Ltac solve_calm :=
  try done;
  match goal with
  | H : calm _ |- calm _ =>
      unfold calm in *; cbn [faults issue]; repeat apply Forall_tail; exact H
  end.

Section Twice.
Implicit Types (u a nid : string) (w : World).

(** The guide's [addLike] along the answers of the network. *)
Lemma guide_addLike_run nid a u w :
  let id := "like-" ++ nid in
  let key := Guide.AlbumLikesService.cache_key a in
  let w1 :=
    {| db := with_likes (user_album_likes (db w) ++ [mkLike id u a]) (db w);
       redis := redis w; faults := tail (faults w);
       log := log w ++ [PgQuery (InsertLike id u a)] |} in
  Guide.AlbumLikesService.addLike nid a u w =
    if link_down w
    then (Throw (PgError None), issue (PgQuery (InsertLike id u a)) w)
    else if decide (likes_of u a (db w) = []) then
      if link_down w1 then (Throw RedisError, issue (RedisDel key) w1)
      else (Ok id,
            {| db := db w1; redis := delete key (redis w);
               faults := tail (faults w1); log := log w1 ++ [RedisDel key] |})
    else (Throw (InvariantError "You already liked this album"),
          issue (PgQuery (InsertLike id u a)) w).
Proof.
  intros id key w1.
  unfold Guide.AlbumLikesService.addLike, try_catch, bind.
  destruct (link_down w) eqn:Hw.
  { by rewrite pool_query_down. }
  rewrite pool_query_up by done. unfold insert_like.
  destruct (decide (likes_of u a (db w) = [])) as [Hnone|Hsome].
  - rewrite Hnone. cbn [fst snd]. fold id w1. simpl.
    unfold CacheService.delete. fold key.
    destruct (link_down w1) eqn:Hw1.
    + by rewrite redis_command_down.
    + by rewrite redis_command_up.
  - destruct (likes_of u a (db w)); [done|]. simpl. by destruct w.
Qed.

Lemma likes_of_inserted id u a (d : Db) :
  likes_of u a d = [] ->
  likes_of u a (with_likes (user_album_likes d ++ [mkLike id u a]) d)
  = [mkLike id u a].
Proof.
  unfold likes_of. cbn [user_album_likes with_likes]. intros Hnone.
  by rewrite filter_app, Hnone, filter_cons, decide_True.
Qed.

End Twice.

(** C3.  From a world without the relation (u, a), and with a network
    that does not fail, the first [addLike] resolves to the new id and the
    second rejects with the conflict error; afterwards the store holds
    exactly one row for (u, a), the one of the first call.  This holds
    for the service and for the guide's copy. *)
Theorem addLike_twice (nid1 nid2 u a : string) (w : World) :
  calm w -> likes_of u a (db w) = [] ->
  (exists id w1,
      AlbumLikesService.addLike nid1 u a w = (Ok id, w1) /\
      fails_conflict (fst (AlbumLikesService.addLike nid2 u a w1)) /\
      likes_of u a (db (snd (AlbumLikesService.addLike nid2 u a w1)))
      = [mkLike id u a]) /\
  (exists id w1,
      Guide.AlbumLikesService.addLike nid1 a u w = (Ok id, w1) /\
      fails_conflict (fst (Guide.AlbumLikesService.addLike nid2 a u w1)) /\
      likes_of u a (db (snd (Guide.AlbumLikesService.addLike nid2 a u w1)))
      = [mkLike id u a]).
Proof.
  intros Hcalm Hnone. split.
  - rewrite addLike_run.
    rewrite !calm_link_up, decide_True by solve_calm.
    do 2 eexists. split; [reflexivity|].
    rewrite addLike_run. cbn [db].
    rewrite calm_link_up by solve_calm.
    rewrite decide_False by (by rewrite likes_of_inserted).
    cbn [fst snd db issue]. split; [by eexists|].
    by apply likes_of_inserted.
  - rewrite guide_addLike_run.
    rewrite !calm_link_up, decide_True by solve_calm.
    do 2 eexists. split; [reflexivity|].
    rewrite guide_addLike_run. cbn [db].
    rewrite calm_link_up by solve_calm.
    rewrite decide_False by (by rewrite likes_of_inserted).
    cbn [fst snd db issue]. split; [by eexists|].
    by apply likes_of_inserted.
Qed.

Lemma addLike_twice_witness :
  exists w1,
    AlbumLikesService.addLike "A" "user-1" "album-1" sample_world
      = (Ok "like-A", w1) /\
    fst (AlbumLikesService.addLike "B" "user-1" "album-1" w1)
      = Throw (InvariantError "Anda hanya boleh like sekali").
Proof.
  destruct (addLike_twice "A" "B" "user-1" "album-1" sample_world)
    as [(id & w1 & Hfirst & Hsecond & Hone) _].
  - by repeat constructor.
  - reflexivity.
  - exists (snd (AlbumLikesService.addLike "A" "user-1" "album-1" sample_world)).
    split; reflexivity.
Defined.

(** ** Reading the count *)

Section Count.
Import AlbumLikesService.

Lemma redis_elapse_lookup secs (r : Redis) k :
  redis_elapse secs r !! k =
    match r !! k with
    | Some (v, None) => Some (v, None)
    | Some (v, Some t) =>
        if (t <=? secs)%N then None else Some (v, Some (t - secs)%N)
    | None => None
    end.
Proof.
  unfold redis_elapse. rewrite lookup_omap.
  by destruct (r !! k) as [[v [t|]]|].
Qed.

Lemma countLikes_first_call a w :
  head (issued_since w (snd (countLikes a w))) = Some (RedisGet (cache_key a)).
Proof.
  rewrite countLikes_run, !countLikes_catch_run.
  repeat case_match; by calc_issued.
Qed.

End Count.

(** C5.  [countLikes] sends the cache lookup before anything else.  With
    a network that does not fail: when the cache holds the text of a
    count [n] under the album's key, the answer is [n] tagged as coming
    from the cache and nothing else is sent; when the key is absent, the
    answer is the number of like rows of the album, tagged computed,
    after the aggregate query and a write of its text to the cache with
    an expiry of 3600 seconds, so the entry is readable for less than
    3600 seconds and gone after them. *)
Theorem countLikes_cache_aside (a : string) (w : World) :
  calm w ->
  let key := AlbumLikesService.cache_key a in
  let n := like_count a (db w) in
  head (issued_since w (snd (AlbumLikesService.countLikes a w)))
    = Some (RedisGet key) /\
  (forall m ttl, redis w !! key = Some (JSON_stringify m, ttl) ->
     AlbumLikesService.countLikes a w
     = (Ok (AlbumLikesService.mkCount m true), issue (RedisGet key) w)) /\
  (redis w !! key = None ->
     exists w',
       AlbumLikesService.countLikes a w
         = (Ok (AlbumLikesService.mkCount n false), w') /\
       db w' = db w /\
       issued_since w w'
         = [RedisGet key; PgQuery (CountLikes a);
            RedisSet key (JSON_stringify n) 3600] /\
       redis w' = <[key := (JSON_stringify n, Some 3600%N)]> (redis w) /\
       (forall secs, (secs < 3600)%N ->
          redis_elapse secs (redis w') !! key
          = Some (JSON_stringify n, Some (3600 - secs)%N)) /\
       (forall secs, (3600 <= secs)%N ->
          redis_elapse secs (redis w') !! key = None)).
Proof.
  intros Hcalm key n. split_and!.
  - apply countLikes_first_call.
  - intros m ttl Hhit. rewrite countLikes_run, calm_link_up by done.
    fold key. by rewrite Hhit, JSON_parse_stringify.
  - intros Hmiss. rewrite countLikes_absent by done.
    rewrite countLikes_catch_run, !calm_link_up by solve_calm.
    eexists. split; [reflexivity|]. cbn [db redis issue]. fold key n.
    split_and!; [done| by calc_issued |done|..].
    + intros secs Hlt. rewrite redis_elapse_lookup, lookup_insert_eq.
      by apply N.leb_gt in Hlt as ->.
    + intros secs Hge. rewrite redis_elapse_lookup, lookup_insert_eq.
      by apply N.leb_le in Hge as ->.
Qed.

Lemma countLikes_cache_aside_witness :
  fst (AlbumLikesService.countLikes "album-1" sample_world)
    = Ok (AlbumLikesService.mkCount 0 false) /\
  fst (AlbumLikesService.countLikes "album-1" liked_world)
    = Ok (AlbumLikesService.mkCount 0 true).
Proof.
  split.
  - destruct (countLikes_cache_aside "album-1" sample_world)
      as (_ & _ & Hmiss); [by repeat constructor|].
    destruct Hmiss as (w' & Hrun & _); [reflexivity|].
    exact (f_equal fst Hrun).
  - destruct (countLikes_cache_aside "album-1" liked_world)
      as (_ & Hhit & _); [by repeat constructor|].
    exact (f_equal fst (Hhit 0%N (Some 1200%N) eq_refl)).
Defined.

(** ** A failing cache lookup *)

(** C4, as stated, fails: with the cache unreachable for the lookup,
    [countLikes] resolves, and to the very value it resolves to when the
    key is absent; no failure reaches the caller. *)
Lemma lookup_failure_not_surfaced :
  link_down lookup_fails_world = true /\
  redis lookup_misses_world !! AlbumLikesService.cache_key "album-1" = None /\
  fst (AlbumLikesService.countLikes "album-1" lookup_fails_world)
    = Ok (AlbumLikesService.mkCount 1 false) /\
  fst (AlbumLikesService.countLikes "album-1" lookup_misses_world)
    = Ok (AlbumLikesService.mkCount 1 false).
Proof. split_and!; reflexivity. Qed.

(** C4, amended.  [countLikes] handles a transport failure of the cache
    lookup exactly as it handles an absent key: from the same tables and
    the same later faults, the run whose lookup fails and the run whose
    lookup finds nothing give the caller the same result, send the same
    calls and leave the same tables; what they resolve to is the count of
    the stored rows tagged computed. *)
Theorem lookup_failure_handled_as_miss
    (a : string) (d : Db) (r : Redis) (fs : list bool) (lg : list Call) :
  let key := AlbumLikesService.cache_key a in
  let failing := AlbumLikesService.countLikes a
                   {| db := d; redis := r; faults := true :: fs; log := lg |} in
  let missing := AlbumLikesService.countLikes a
                   {| db := d; redis := delete key r;
                      faults := false :: fs; log := lg |} in
  fst failing = fst missing /\
  db (snd failing) = db (snd missing) /\
  log (snd failing) = log (snd missing) /\
  (forall c, fst failing = Ok c ->
             c = AlbumLikesService.mkCount (like_count a d) false).
Proof.
  intros key failing missing. subst failing missing.
  rewrite (countLikes_absent a (mkWorld d (delete key r) (false :: fs) lg))
    by apply lookup_delete_eq.
  rewrite countLikes_run. cbn [link_down faults head].
  rewrite !countLikes_catch_run. cbn [issue db redis faults log tail].
  unfold link_down. cbn [faults head tail].
  destruct fs as [|[] [|[] fs]]; cbn [head tail fst snd db log];
    split_and!; try done; by intros c [= <-].
Qed.

(** ** The pre-check of [addLike] *)

(** C2 at its failing inputs.  On a stored relation the service's
    [addLike] rejects after its [SELECT] alone: no insert is sent, so the
    conflict comes from the prior read.  When two calls for the same pair
    both pass the check before either inserts, the second insert violates
    [unique_user_and_album] and the store's error reaches the caller as
    it is.  The guide's [addLike] on the stored relation sends the insert
    and turns that violation into the conflict error. *)
Theorem addLike_conflict_by_prior_read :
  (forall nid u a,
      AlbumLikesService.addLike nid u a
      = (AlbumLikesService.addLike_check u a ;;;
         AlbumLikesService.addLike_insert nid u a)) /\
  (let out := AlbumLikesService.addLike "B" "user-1" "album-1" liked_world in
   fst out = Throw (InvariantError "Anda hanya boleh like sekali") /\
   issued_since liked_world (snd out)
   = [PgQuery (SelectLike "user-1" "album-1")]) /\
  (let first := AlbumLikesService.addLike_check "user-1" "album-1" sample_world in
   let second := AlbumLikesService.addLike_check "user-1" "album-1" (snd first) in
   let third :=
     AlbumLikesService.addLike_insert "A" "user-1" "album-1" (snd second) in
   let fourth :=
     AlbumLikesService.addLike_insert "B" "user-1" "album-1" (snd third) in
   fst first = Ok tt /\ fst second = Ok tt /\ fst third = Ok "like-A" /\
   fst fourth = Throw (PgError (Some "unique_user_and_album"))) /\
  (let out := Guide.AlbumLikesService.addLike "B" "album-1" "user-1" liked_world in
   fst out = Throw (InvariantError "You already liked this album") /\
   issued_since liked_world (snd out)
   = [PgQuery (InsertLike "like-B" "user-1" "album-1")]).
Proof. cbv zeta. split_and!; try reflexivity. Qed.

(** ** A song added twice *)

(** C8 at its failing input.  song-1 is already in playlist-1 of user-1.
    The service's [addPlaylistSong] lets the violation of
    [unique_playlist_id_and_song_id] through as the store's own error;
    the guide's [addSongToPlaylist] turns it into the conflict error.
    Both leave the memberships as they were. *)
Theorem addPlaylistSong_duplicate :
  (let out := PlaylistsService.addPlaylistSong
                "B" "playlist-1" "song-1" "user-1" sample_world in
   fst out = Throw (PgError (Some "unique_playlist_id_and_song_id")) /\
   playlist_songs (db (snd out)) = playlist_songs sample_db) /\
  (let out := Guide.PlaylistsService.addSongToPlaylist
                "B" "playlist-1" "song-1" sample_world in
   fst out = Throw (InvariantError "Song already exists in playlist") /\
   playlist_songs (db (snd out)) = playlist_songs sample_db).
Proof. cbv zeta. split_and!; reflexivity. Qed.

(** ** The activity log *)

#[global] Instance time_le_total : Total time_le.
Proof. intros x y. unfold time_le. apply String.leb_total. Qed.

Section Activities.
Import Guide.PlaylistsService.

(** One append: when it resolves the record is the new last row of the
    table, otherwise the tables are unchanged; the other tables never
    change. *)
Lemma addActivity_effect (c : Append) w :
  let out := addActivity (ap_nid c) (ap_time c) (ap_playlist c) (ap_song c)
                         (ap_user c) (ap_action c) w in
  playlist_song_activities (db (snd out))
    = (playlist_song_activities (db w)
       ++ if fst out is Ok _ then [activity_of c] else [])%list /\
  users (db (snd out)) = users (db w) /\
  songs (db (snd out)) = songs (db w).
Proof.
  unfold addActivity, bind. fold (activity_of c).
  destruct (link_down w) eqn:Hw.
  - rewrite pool_query_down by done. simpl. by rewrite app_nil_r.
  - rewrite pool_query_up by done. unfold insert_activity.
    repeat case_match; simpl; by rewrite ?app_nil_r.
Qed.

Lemma run_appends_effect calls : forall w,
  playlist_song_activities (db (snd (run_appends calls w)))
    = (playlist_song_activities (db w) ++ fst (run_appends calls w))%list /\
  users (db (snd (run_appends calls w))) = users (db w) /\
  songs (db (snd (run_appends calls w))) = songs (db w).
Proof.
  induction calls as [|c calls IH]; intros w; simpl.
  { by rewrite app_nil_r. }
  pose proof (addActivity_effect c w) as (Hact & Husers & Hsongs).
  destruct (addActivity _ _ _ _ _ _ w) as [r w1]. simpl in *.
  destruct (IH w1) as (IHact & IHusers & IHsongs).
  destruct (run_appends calls w1) as [appended w2]. simpl in *.
  rewrite IHact, IHusers, IHsongs, Hact, Husers, Hsongs.
  split_and!; [|done..]. destruct r; by rewrite <- app_assoc.
Qed.

Lemma getActivities_up p w :
  link_down w = false ->
  getActivities p w
  = (Ok (merge_sort time_le (joined_activities p (db w))),
     issue (PgQuery (SelectActivities p)) w).
Proof.
  intros Hup. unfold getActivities. rewrite pool_query_up by done.
  simpl. by destruct w.
Qed.

Lemma join_activity_ext (d d' : Db) a :
  users d' = users d -> songs d' = songs d ->
  join_activity d' a = join_activity d a.
Proof. unfold join_activity. by intros -> ->. Qed.

End Activities.

(** C9, as stated, fails: an append for a song id without a row in
    [songs] resolves and stores its record, yet the listing of the
    playlist does not show it. *)
Lemma appended_record_not_listed :
  let out := Guide.PlaylistsService.addActivity
               "Z" "2024-05-01T10:00:09.000Z" "playlist-1" "song-404" "user-1"
               "add" sample_world in
  fst out = Ok tt /\
  playlist_song_activities (db (snd out))
  = [mkActivity "activity-Z" "playlist-1" "song-404" "user-1" "add"
                "2024-05-01T10:00:09.000Z"] /\
  fst (Guide.PlaylistsService.getActivities "playlist-1" (snd out)) = Ok [].
Proof. cbv zeta. split_and!; reflexivity. Qed.

(** C9, amended.  After any sequence of [addActivity] calls, when the
    store answers the query, [getActivities p] resolves to the rows of
    the records stored before plus the records of the calls that
    resolved, restricted to playlist [p] and to the records whose user
    and song are found, each as username, title, action and time, in
    ascending order of time; with no record for [p] it resolves to the
    empty list. *)
Theorem getActivities_lists_joined
    (calls : list Append) (p : string) (w : World) :
  let appended := fst (run_appends calls w) in
  let w' := snd (run_appends calls w) in
  let records := (playlist_song_activities (db w) ++ appended)%list in
  link_down w' = false ->
  exists rows,
    Guide.PlaylistsService.getActivities p w'
      = (Ok rows, issue (PgQuery (SelectActivities p)) w') /\
    Sorted time_le rows /\
    rows ≡ₚ listed p (db w) records /\
    (filter (fun a => act_playlist a = p) records = [] -> rows = []).
Proof.
  intros appended w' records Hup.
  destruct (run_appends_effect calls w) as (Hact & Husers & Hsongs).
  fold w' appended records in Hact, Husers, Hsongs.
  exists (merge_sort time_le (joined_activities p (db w'))).
  assert (Hjoin : joined_activities p (db w') = listed p (db w) records).
  { unfold joined_activities, listed. rewrite Hact.
    apply list_omap_ext, Forall2_same_length_lookup. split; [done|].
    intros i a b Ha Hb. assert (a = b) as -> by congruence.
    by apply join_activity_ext. }
  split_and!.
  - by apply getActivities_up.
  - apply Sorted_merge_sort, _.
  - by rewrite merge_sort_Permutation, Hjoin.
  - intros Hnone. apply Permutation_nil_r.
    rewrite merge_sort_Permutation, Hjoin. unfold listed. by rewrite Hnone.
Qed.

Lemma getActivities_lists_joined_witness :
  fst (Guide.PlaylistsService.getActivities "playlist-1"
         (snd (run_appends sample_appends sample_world)))
  = Ok [ mkActivityRow "bob" "Hejira" "add" "2024-05-01T10:00:03.440Z";
         mkActivityRow "alice" "Blue" "add" "2024-05-01T10:00:07.120Z" ]
  /\ exists rows,
       fst (Guide.PlaylistsService.getActivities "playlist-1"
              (snd (run_appends sample_appends sample_world))) = Ok rows
       /\ Sorted time_le rows.
Proof.
  split; [reflexivity|].
  destruct (getActivities_lists_joined sample_appends "playlist-1" sample_world)
    as (rows & Hrun & Hsorted & _); [reflexivity|].
  exists rows. split; [exact (f_equal fst Hrun) | exact Hsorted].
Defined.

(** * Further properties *)

(** ** The in-memory song service *)

Section Songs.
Import SongService.
Implicit Types (songs : list StoredSong) (p : Payload).

Lemma head_filter_id id songs :
  head (filter (fun song => sg_id song = id) songs)
  = snd <$> list_find (fun song => sg_id song = id) songs.
Proof.
  induction songs as [|x l IH]; [done|].
  rewrite filter_cons. cbn [list_find].
  destruct (decide (sg_id x = id)) as [Hx|Hx]; [done|].
  rewrite IH. by destruct (list_find _ l) as [[i y]|].
Qed.

Lemma getSongById_head id songs :
  getSongById id songs
  = (match head (filter (fun song => sg_id song = id) songs) with
     | Some song => Ok song
     | None => Throw (NotFoundError "Lagu tidak ditemukan")
     end, songs).
Proof. unfold getSongById. by destruct (filter _ songs). Qed.

Lemma filter_id_none id songs :
  id ∉ ids songs -> filter (fun song => sg_id song = id) songs = [].
Proof.
  intros Hfresh. induction songs as [|x l IH]; [done|].
  unfold ids in Hfresh. rewrite fmap_cons, not_elem_of_cons in Hfresh.
  destruct Hfresh as [Hx Hl]. rewrite filter_cons, decide_False by done.
  by apply IH.
Qed.

End Songs.

(** X1.  [addSong] always resolves: it returns the new id and the array
    afterwards is the old one followed by the new song; the
    [InvariantError] of its self-check cannot be raised. *)
Theorem addSong_appends (nid : string) (p : SongService.Payload)
    (songs : list SongService.StoredSong) :
  SongService.addSong nid p songs
  = (Ok ("song-" ++ nid),
     (songs ++ [SongService.mkStoredSong ("song-" ++ nid)
                  (SongService.p_title p) (SongService.p_year p)
                  (SongService.p_genre p) (SongService.p_performer p)
                  (SongService.p_duration p) (SongService.p_albumId p)])%list).
Proof.
  unfold SongService.addSong. cbv zeta.
  rewrite filter_app, filter_cons, decide_True by done.
  rewrite length_app. cbn [length filter]. 
  rewrite bool_decide_eq_true_2 by lia. done.
Qed.

(** X2.  Round trip: when the new id is not yet stored, [getSongById]
    after [addSong] resolves to the song with the fields given, and every
    song that could be read before is still read the same. *)
Theorem addSong_then_getSongById (nid : string) (p : SongService.Payload)
    (songs : list SongService.StoredSong) :
  "song-" ++ nid ∉ SongService.ids songs ->
  let after := snd (SongService.addSong nid p songs) in
  fst (SongService.getSongById ("song-" ++ nid) after)
  = Ok (SongService.mkStoredSong ("song-" ++ nid)
          (SongService.p_title p) (SongService.p_year p)
          (SongService.p_genre p) (SongService.p_performer p)
          (SongService.p_duration p) (SongService.p_albumId p)) /\
  (forall id song,
      fst (SongService.getSongById id songs) = Ok song ->
      fst (SongService.getSongById id after) = Ok song).
Proof.
  intros Hfresh after. subst after. rewrite addSong_appends. cbn [snd].
  split.
  - rewrite getSongById_head, filter_app, filter_id_none by done.
    cbn [app]. by rewrite filter_cons, decide_True.
  - intros id song. rewrite !getSongById_head, filter_app. cbn [fst].
    destruct (filter _ songs) as [|x l]; [done|]. done.
Qed.

Lemma addSong_then_getSongById_witness :
  fst (SongService.getSongById "song-D"
         (snd (SongService.addSong "D" sample_payload sample_songs)))
  = Ok (SongService.mkStoredSong "song-D" "River" 1971 "folk" "Joni"
          (Some 244%Z) (Some "album-2")).
Proof.
  refine (proj1 (addSong_then_getSongById "D" sample_payload sample_songs _)).
  unfold SongService.ids. simpl. intros Hin.
  repeat (apply elem_of_cons in Hin as [Hin|Hin]; [discriminate Hin|]).
  by apply elem_of_nil in Hin.
Defined.

Section SongUpdates.
Import SongService.
Implicit Types (songs : list StoredSong) (p : Payload).

Lemma list_find_id_fresh id songs :
  id ∉ ids songs -> list_find (fun song => sg_id song = id) songs = None.
Proof.
  intros Hfresh. apply list_find_None, Forall_forall. intros x Hx Hid.
  apply Hfresh. unfold ids. apply list_elem_of_fmap. by exists x.
Qed.

Lemma list_find_id_stored id songs :
  id ∈ ids songs ->
  exists i old, list_find (fun song => sg_id song = id) songs = Some (i, old).
Proof.
  unfold ids. intros (x & Hid & Hx)%list_elem_of_fmap.
  destruct (list_find_elem_of (fun song => sg_id song = id) songs x)
    as [[i old] Hfind]; [done|done|]. by exists i, old.
Qed.

(** What replacing the found song does to the reads by id. *)
Lemma filter_after_edit id p songs : forall i old,
  list_find (fun song => sg_id song = id) songs = Some (i, old) ->
  head (filter (fun song => sg_id song = id) songs) = Some old /\
  head (filter (fun song => sg_id song = id) (<[i := overwrite old p]> songs))
  = Some (overwrite old p) /\
  (forall id', id' <> id ->
     filter (fun song => sg_id song = id') (<[i := overwrite old p]> songs)
     = filter (fun song => sg_id song = id') songs).
Proof.
  induction songs as [|x l IH]; intros i old; [done|].
  cbn [list_find]. destruct (decide (sg_id x = id)) as [Hx|Hx].
  - intros [= <- <-]. cbn [insert list_insert].
    rewrite !filter_cons, !decide_True by done. split_and!; [done..|].
    intros id' Hne. rewrite !filter_cons. cbn [overwrite sg_id].
    by rewrite !decide_False by congruence.
  - destruct (list_find _ l) as [[j y]|] eqn:Hfind; [|done].
    intros [= <- <-]. destruct (IH j y eq_refl) as (Hold & Hnew & Hother).
    cbn [insert list_insert]. rewrite !filter_cons, !decide_False by done.
    split_and!; [done..|]. intros id' Hne. rewrite !filter_cons.
    destruct (decide (sg_id x = id')); [f_equal|]; by apply Hother.
Qed.

(** What removing the found song does to the reads by id. *)
Lemma filter_after_delete id songs : forall i old,
  list_find (fun song => sg_id song = id) songs = Some (i, old) ->
  filter (fun song => sg_id song = id) (delete i songs)
  = tail (filter (fun song => sg_id song = id) songs) /\
  (forall id', id' <> id ->
     filter (fun song => sg_id song = id') (delete i songs)
     = filter (fun song => sg_id song = id') songs).
Proof.
  induction songs as [|x l IH]; intros i old; [done|].
  cbn [list_find]. destruct (decide (sg_id x = id)) as [Hx|Hx].
  - intros [= <- <-]. cbn [delete list_delete].
    rewrite filter_cons, decide_True by done. split; [done|].
    intros id' Hne. by rewrite filter_cons, decide_False by congruence.
  - destruct (list_find _ l) as [[j y]|] eqn:Hfind; [|done].
    intros [= <- <-]. destruct (IH j y eq_refl) as (Hsame & Hother).
    cbn [delete list_delete]. rewrite !filter_cons, !decide_False by done.
    split; [done|]. intros id' Hne. rewrite !filter_cons.
    destruct (decide (sg_id x = id')); [f_equal|]; by apply Hother.
Qed.

Lemma ids_after_edit id p songs i old :
  list_find (fun song => sg_id song = id) songs = Some (i, old) ->
  ids (<[i := overwrite old p]> songs) = ids songs.
Proof.
  intros (Hi & _ & _)%list_find_Some. unfold ids.
  rewrite list_fmap_insert. apply list_insert_id.
  by rewrite list_lookup_fmap, Hi.
Qed.

Lemma NoDup_delete_gone (l : list string) : forall i x,
  NoDup l -> l !! i = Some x -> x ∉ delete i l.
Proof.
  induction l as [|y l IH]; intros i x Hnd Hi; [done|].
  apply NoDup_cons in Hnd as [Hy Hnd]. destruct i as [|i]; simpl in *.
  - by injection Hi as ->.
  - apply not_elem_of_cons. split; [|by eapply IH].
    intros ->. apply Hy. by eapply list_elem_of_lookup_2.
Qed.

End SongUpdates.

(** X3.  [editSongById] rejects with [NotFoundError] and leaves the array
    alone when no song has the id.  Otherwise it resolves, the ids stay
    as they were in the same order, the song read under the id is the one
    read before with its six fields replaced and its id kept, and the
    reads under every other id are unchanged. *)
Theorem editSongById_replaces (id : string) (p : SongService.Payload)
    (songs : list SongService.StoredSong) :
  let out := SongService.editSongById id p songs in
  (id ∉ SongService.ids songs ->
     fails_not_found (fst out) /\ snd out = songs) /\
  (id ∈ SongService.ids songs ->
     fst out = Ok tt /\
     SongService.ids (snd out) = SongService.ids songs /\
     (exists old,
         fst (SongService.getSongById id songs) = Ok old /\
         fst (SongService.getSongById id (snd out))
         = Ok (SongService.overwrite old p)) /\
     (forall id', id' <> id ->
        fst (SongService.getSongById id' (snd out))
        = fst (SongService.getSongById id' songs))).
Proof.
  intros out. subst out. unfold SongService.editSongById. split.
  - intros Hfresh. rewrite list_find_id_fresh by done. by split; [eexists|].
  - intros (i & old & Hfind)%list_find_id_stored. rewrite Hfind. cbn [fst snd].
    destruct (filter_after_edit id p songs i old Hfind) as (Hold & Hnew & Hother).
    split_and!; [done|by eapply ids_after_edit| |].
    + exists old. by rewrite !getSongById_head, Hold, Hnew.
    + intros id' Hne. by rewrite !getSongById_head, (Hother id' Hne).
Qed.

Lemma editSongById_replaces_witness :
  fst (SongService.getSongById "song-B"
         (snd (SongService.editSongById "song-B" sample_payload sample_songs)))
  = Ok (SongService.mkStoredSong "song-B" "River" 1971 "folk" "Joni"
          (Some 244%Z) (Some "album-2")).
Proof.
  destruct (proj2 (editSongById_replaces "song-B" sample_payload sample_songs))
    as (_ & _ & (old & Hold & Hnew) & _).
  - apply (bool_decide_unpack _). vm_compute. exact I.
  - injection Hold as <-. exact Hnew.
Defined.

(** X4.  [deleteSongById] rejects with [NotFoundError] and leaves the
    array alone when no song has the id.  Otherwise it resolves, the
    array is one song shorter and the reads under every other id are
    unchanged; when the stored ids are distinct, the id is gone and
    reading it is rejected with [NotFoundError]. *)
Theorem deleteSongById_removes (id : string)
    (songs : list SongService.StoredSong) :
  let out := SongService.deleteSongById id songs in
  (id ∉ SongService.ids songs ->
     fails_not_found (fst out) /\ snd out = songs) /\
  (id ∈ SongService.ids songs ->
     fst out = Ok tt /\
     S (length (snd out)) = length songs /\
     (forall id', id' <> id ->
        fst (SongService.getSongById id' (snd out))
        = fst (SongService.getSongById id' songs)) /\
     (NoDup (SongService.ids songs) ->
        (id ∉ SongService.ids (snd out)) /\
        fails_not_found (fst (SongService.getSongById id (snd out))))).
Proof.
  intros out. subst out. unfold SongService.deleteSongById. split.
  - intros Hfresh. rewrite list_find_id_fresh by done. by split; [eexists|].
  - intros (i & old & Hfind)%list_find_id_stored. rewrite Hfind. cbn [fst snd].
    destruct (filter_after_delete id songs i old Hfind) as (Hsame & Hother).
    pose proof Hfind as (Hi & Hid & _)%list_find_Some.
    split_and!; [done| | |].
    + rewrite length_delete by eauto.
      apply lookup_lt_Some in Hi. lia.
    + intros id' Hne. by rewrite !getSongById_head, (Hother id' Hne).
    + intros Hnd.
      assert (Hgone : id ∉ SongService.ids (delete i songs)).
      { unfold SongService.ids. rewrite list_fmap_delete.
        apply NoDup_delete_gone; [done|]. by rewrite list_lookup_fmap, Hi, <- Hid. }
      split; [done|]. rewrite getSongById_head, filter_id_none by done.
      by eexists.
Qed.

Lemma deleteSongById_removes_witness :
  fails_not_found
    (fst (SongService.getSongById "song-B"
            (snd (SongService.deleteSongById "song-B" sample_songs)))).
Proof.
  destruct (proj2 (deleteSongById_removes "song-B" sample_songs))
    as (_ & _ & _ & Hgone).
  - apply (bool_decide_unpack _). vm_compute. exact I.
  - apply Hgone. apply (bool_decide_unpack _). vm_compute. exact I.
Defined.

(** X5.  Distinct ids stay distinct: [addSong] with an id that is not
    stored, [editSongById] and [deleteSongById] all keep the stored ids
    free of duplicates. *)
Theorem song_ids_stay_distinct (nid id : string) (p : SongService.Payload)
    (songs : list SongService.StoredSong) :
  NoDup (SongService.ids songs) ->
  ("song-" ++ nid ∉ SongService.ids songs ->
     NoDup (SongService.ids (snd (SongService.addSong nid p songs)))) /\
  NoDup (SongService.ids (snd (SongService.editSongById id p songs))) /\
  NoDup (SongService.ids (snd (SongService.deleteSongById id songs))).
Proof.
  intros Hnd. split_and!.
  - intros Hfresh. rewrite addSong_appends. cbn [snd]. unfold SongService.ids.
    rewrite fmap_app. apply NoDup_app. split_and!; [done| |].
    + intros x Hx Hin. apply list_elem_of_singleton in Hin. by subst x.
    + apply NoDup_singleton.
  - unfold SongService.editSongById.
    destruct (list_find _ songs) as [[i old]|] eqn:Hfind; cbn [snd]; [|done].
    by erewrite ids_after_edit.
  - unfold SongService.deleteSongById.
    destruct (list_find _ songs) as [[i old]|] eqn:Hfind; cbn [snd]; [|done].
    unfold SongService.ids. rewrite list_fmap_delete.
    eapply sublist_NoDup; [done|apply sublist_delete].
Qed.

Lemma song_ids_stay_distinct_witness :
  NoDup (SongService.ids
           (snd (SongService.deleteSongById "song-A" sample_songs))).
Proof.
  refine (proj2 (proj2
    (song_ids_stay_distinct "" "song-A" sample_payload sample_songs _))).
  apply (bool_decide_unpack _). vm_compute. exact I.
Defined.

(** ** The cache service *)

Section Cache.
Implicit Types (key value : string) (w : World).

Lemma cache_get_up key w :
  link_down w = false ->
  CacheService.get key w
  = (match redis w !! key with
     | Some (v, _) => Ok v
     | None => Throw (JsError "Cache not found")
     end, issue (RedisGet key) w).
Proof.
  intros Hup. unfold CacheService.get, bind.
  rewrite redis_command_up by done. cbn [fst snd].
  destruct (redis w !! key) as [[v ttl]|]; simpl; by destruct w.
Qed.

Lemma cache_delete_up key w :
  link_down w = false ->
  CacheService.delete key w
  = (Ok (if redis w !! key is Some _ then 1%N else 0%N),
     {| db := db w; redis := delete key (redis w);
        faults := tail (faults w); log := log w ++ [RedisDel key] |}).
Proof.
  intros Hup. unfold CacheService.delete. by rewrite redis_command_up.
Qed.

End Cache.



(** X7.  With a working link, [delete key] resolves to the number of
    entries it removed, 1 when the key was stored and 0 otherwise; after
    it [get key] rejects with the error Cache not found, a second delete
    resolves to 0, and the entries of all other keys are as before. *)
Theorem cache_delete_then_get (key : string) (w : World) :
  calm w ->
  let out := CacheService.delete key w in
  fst out = Ok (if redis w !! key is Some _ then 1%N else 0%N) /\
  fst (CacheService.get key (snd out)) = Throw (JsError "Cache not found") /\
  fst (CacheService.delete key (snd out)) = Ok 0%N /\
  (forall key', key' <> key -> redis (snd out) !! key' = redis w !! key').
Proof.
  intros Hcalm out. subst out.
  rewrite (cache_delete_up key w) by by apply calm_link_up.
  cbn [fst snd]. split_and!.
  - done.
  - rewrite cache_get_up by (apply calm_link_up; solve_calm).
    cbn [fst redis]. by rewrite lookup_delete_eq.
  - rewrite cache_delete_up by (apply calm_link_up; solve_calm).
    cbn [fst redis]. by rewrite lookup_delete_eq.
  - intros key' Hne. cbn [redis]. by rewrite lookup_delete_ne.
Qed.

Lemma cache_delete_then_get_witness :
  fst (CacheService.delete "album-likes:album-1" liked_world) = Ok 1%N /\
  fst (CacheService.get "album-likes:album-1"
         (snd (CacheService.delete "album-likes:album-1" liked_world)))
  = Throw (JsError "Cache not found").
Proof.
  destruct (cache_delete_then_get "album-likes:album-1" liked_world)
    as (Hcount & Hget & _); [by repeat constructor|].
  split; [exact Hcount | exact Hget].
Defined.

(** ** The cached count mirrors the store *)

Section Coherence.
Import AlbumLikesService.
Implicit Types (u a b nid : string) (w : World) (d : Db).



Lemma like_count_insert_same id u a d :
  like_count a (with_likes (user_album_likes d ++ [mkLike id u a]) d)
  = (like_count a d + 1)%N.
Proof.
  unfold like_count. cbn [user_album_likes with_likes].
  rewrite filter_app, filter_cons, decide_True by done.
  by rewrite length_app, Nat2N.inj_add.
Qed.


(** A calm [addLike], along the state of the relation. *)
Lemma addLike_calm nid u a w :
  calm w ->
  let id := "like-" ++ nid in
  addLike nid u a w =
    if decide (likes_of u a (db w) = []) then
      (Ok id,
       {| db := with_likes (user_album_likes (db w) ++ [mkLike id u a]) (db w);
          redis := delete (cache_key a) (redis w);
          faults := tail (tail (tail (faults w)));
          log := log w ++ [PgQuery (SelectLike u a); PgQuery (InsertLike id u a);
                           RedisDel (cache_key a)] |})
    else (Throw (InvariantError "Anda hanya boleh like sekali"),
          issue (PgQuery (SelectLike u a)) w).
Proof.
  intros Hcalm id. rewrite addLike_run.
  rewrite !calm_link_up by solve_calm.
  case_decide; [|done]. cbn [issue faults log]. by rewrite <- !app_assoc.
Qed.

(** A calm [deleteLike], along the state of the relation. *)
Lemma deleteLike_calm u a w :
  calm w ->
  deleteLike u a w =
    if decide (likes_of u a (db w) = []) then
      (Throw (NotFoundError "Anda belum like album ini"),
       issue (PgQuery (DeleteLike u a)) w)
    else
      (Ok tt,
       {| db := snd (delete_like u a (db w));
          redis := delete (cache_key a) (redis w);
          faults := tail (tail (faults w));
          log := log w ++ [PgQuery (DeleteLike u a); RedisDel (cache_key a)] |}).
Proof.
  intros Hcalm. rewrite deleteLike_run.
  rewrite !calm_link_up by solve_calm.
  case_decide as Hl.
  - rewrite delete_like_absent by done. by destruct w.
  - cbn [issue faults log db]. by rewrite <- !app_assoc.
Qed.

(** A calm [countLikes], along the state of the cache entry. *)
Lemma countLikes_calm a w :
  calm w ->
  let n := like_count a (db w) in
  countLikes a w =
    match redis w !! cache_key a ≫= (fun e => JSON_parse (fst e)) with
    | Some m => (Ok (mkCount m true), issue (RedisGet (cache_key a)) w)
    | None =>
        (Ok (mkCount n false),
         {| db := db w;
            redis := <[cache_key a := (JSON_stringify n, Some 3600%N)]> (redis w);
            faults := tail (tail (tail (faults w)));
            log := log w ++ [RedisGet (cache_key a); PgQuery (CountLikes a);
                             RedisSet (cache_key a) (JSON_stringify n) 3600] |})
    end.
Proof.
  intros Hcalm n. rewrite countLikes_run, countLikes_catch_run.
  rewrite !calm_link_up by solve_calm.
  cbn [issue db redis faults log]. fold n. rewrite <- !app_assoc.
  destruct (redis w !! cache_key a) as [[v ttl]|]; cbn [mbind option_bind fst];
    [destruct (JSON_parse v)|]; done.
Qed.

End Coherence.



(** X9.  Reads repeat: with a working network, a second [countLikes]
    right after a first resolves to the same number and is served from
    the cache, and neither call changes the store. *)
Theorem countLikes_twice (a : string) (w : World) :
  calm w ->
  exists c w1 w2,
    AlbumLikesService.countLikes a w = (Ok c, w1) /\
    AlbumLikesService.countLikes a w1
    = (Ok (AlbumLikesService.mkCount (AlbumLikesService.count c) true), w2) /\
    db w2 = db w.
Proof.
  intros Hcalm. rewrite countLikes_calm by done.
  destruct (redis w !! AlbumLikesService.cache_key a ≫= _) as [m|] eqn:Hhit.
  - do 3 eexists. split; [reflexivity|].
    rewrite countLikes_calm by solve_calm. cbn [issue redis].
    rewrite Hhit. by split.
  - do 3 eexists. split; [reflexivity|].
    rewrite countLikes_calm by solve_calm. cbn [redis].
    rewrite lookup_insert_eq. cbn [mbind option_bind fst].
    rewrite JSON_parse_stringify. by split.
Qed.

Lemma countLikes_twice_witness :
  exists w1 w2,
    AlbumLikesService.countLikes "album-1" lookup_misses_world
    = (Ok (AlbumLikesService.mkCount 1 false), w1) /\
    AlbumLikesService.countLikes "album-1" w1
    = (Ok (AlbumLikesService.mkCount 1 true), w2).
Proof.
  destruct (countLikes_twice "album-1" lookup_misses_world)
    as (c & w1 & w2 & Hfirst & Hsecond & _); [by repeat constructor|].
  exists w1, w2.
  assert (Hc : c = AlbumLikesService.mkCount 1 false).
  { assert (Hrun : fst (AlbumLikesService.countLikes "album-1" lookup_misses_world)
                   = Ok (AlbumLikesService.mkCount 1 false)) by reflexivity.
    rewrite Hfirst in Hrun. by injection Hrun. }
  subst c. split; [exact Hfirst | exact Hsecond].
Defined.

(** ** Likes add up *)

Section ManyLikes.
Import AlbumLikesService.
Implicit Types (u a nid : string) (w : World).

Lemma likes_of_insert_other id u u' a (d : Db) :
  u' <> u ->
  likes_of u' a (with_likes (user_album_likes d ++ [mkLike id u a]) d)
  = likes_of u' a d.
Proof.
  intros Hne. unfold likes_of. cbn [user_album_likes with_likes].
  rewrite filter_app, filter_cons, decide_False by (cbn; intros [? _]; congruence).
  by rewrite app_nil_r.
Qed.

Lemma like_all_adds_up calls a : forall w,
  calm w ->
  NoDup (snd <$> calls) ->
  (forall u, u ∈ snd <$> calls -> likes_of u a (db w) = []) ->
  fst (like_all calls a w) = (fun c => Ok ("like-" ++ fst c)) <$> calls /\
  like_count a (db (snd (like_all calls a w)))
  = (like_count a (db w) + N.of_nat (length calls))%N /\
  calm (snd (like_all calls a w)) /\
  (calls <> [] -> redis (snd (like_all calls a w)) !! cache_key a = None).
Proof.
  induction calls as [|[nid u] calls IH]; intros w Hcalm Hnd Hnew.
  { cbn. split_and!; [done|lia|done|done]. }
  rewrite fmap_cons in Hnd. apply NoDup_cons in Hnd as [Hu Hnd].
  cbn [like_all]. rewrite addLike_calm by done.
  rewrite decide_True by (apply Hnew; rewrite fmap_cons; apply list_elem_of_here).
  set (w1 := {| db := _ |}).
  destruct (IH w1) as (Hres & Hcount & Hcalm' & Hkey).
  { subst w1. solve_calm. }
  { done. }
  { intros u' Hu'. subst w1. cbn [db].
    rewrite likes_of_insert_other by (intros ->; done).
    apply Hnew. rewrite fmap_cons. by apply list_elem_of_further. }
  assert (Hlast : redis (snd (like_all calls a w1)) !! cache_key a = None).
  { destruct calls as [|c calls]; [|by apply Hkey].
    subst w1. cbn [like_all snd redis]. apply lookup_delete_eq. }
  destruct (like_all calls a w1) as [rs w2]. cbn [fst snd] in *.
  split_and!.
  - by rewrite Hres.
  - rewrite Hcount. subst w1. cbn [db length].
    rewrite like_count_insert_same. lia.
  - done.
  - done.
Qed.

End ManyLikes.

(** X10.  Likes add up: with a working network, likes of one album by
    distinct users none of whom has liked it yet all resolve, each to its
    own new id; the store's count of the album grows by the number of
    calls, and after at least one call the next [countLikes] resolves to
    that count, computed. *)
Theorem likes_add_up (calls : list (string * string)) (a : string) (w : World) :
  calm w ->
  NoDup (snd <$> calls) ->
  (forall u, u ∈ snd <$> calls -> likes_of u a (db w) = []) ->
  let out := like_all calls a w in
  let total := (like_count a (db w) + N.of_nat (length calls))%N in
  fst out = (fun c => Ok ("like-" ++ fst c)) <$> calls /\
  like_count a (db (snd out)) = total /\
  (calls <> [] ->
     exists w', AlbumLikesService.countLikes a (snd out)
                = (Ok (AlbumLikesService.mkCount total false), w')).
Proof.
  intros Hcalm Hnd Hnew out total. subst out total.
  destruct (like_all_adds_up calls a w Hcalm Hnd Hnew)
    as (Hres & Hcount & Hcalm' & Hkey).
  split_and!; [done..|]. intros Hne.
  rewrite countLikes_calm by done. rewrite (Hkey Hne).
  cbn [mbind option_bind]. rewrite Hcount. by eexists.
Qed.

Lemma likes_add_up_witness :
  exists w',
    AlbumLikesService.countLikes "album-1"
      (snd (like_all [("A", "user-1"); ("B", "user-2")] "album-1" sample_world))
    = (Ok (AlbumLikesService.mkCount 2 false), w').
Proof.
  refine (proj2 (proj2
    (likes_add_up [("A", "user-1"); ("B", "user-2")] "album-1" sample_world
       _ _ _)) _).
  - by repeat constructor.
  - apply (bool_decide_unpack _). vm_compute. exact I.
  - intros u Hu. reflexivity.
  - discriminate.
Defined.

(** ** When the invalidation fails *)

(** X11.  [addLike] is not atomic across store and cache: when the store
    answers both statements and the cache delete then fails in transport,
    the call rejects with the cache's error although the new row is
    stored and the cache entry is left as it was.  A retry is then
    rejected as a conflict, and a count text left in the cache is still
    served, tagged as coming from the cache. *)
Theorem addLike_cache_delete_fails
    (nid u a : string) (d : Db) (r : Redis) (fs : list bool) (lg : list Call) :
  likes_of u a d = [] ->
  let w := {| db := d; redis := r;
              faults := false :: false :: true :: fs; log := lg |} in
  let out := AlbumLikesService.addLike nid u a w in
  fst out = Throw RedisError /\
  likes_of u a (db (snd out)) = [mkLike ("like-" ++ nid) u a] /\
  redis (snd out) = r /\
  (link_down (snd out) = false ->
     (forall nid', fails_conflict
                     (fst (AlbumLikesService.addLike nid' u a (snd out)))) /\
     (forall m ttl,
         r !! AlbumLikesService.cache_key a = Some (JSON_stringify m, ttl) ->
         fst (AlbumLikesService.countLikes a (snd out))
         = Ok (AlbumLikesService.mkCount m true))).
Proof.
  intros Hnone w out. subst out w. rewrite addLike_run.
  cbn [link_down faults head issue tail db]. rewrite decide_True by done.
  cbn [fst snd db redis]. split_and!; [done|by apply likes_of_inserted|done|].
  intros Hup. split.
  - intros nid'. rewrite addLike_run, Hup. cbn [db issue].
    rewrite decide_False by (by rewrite likes_of_inserted).
    by eexists.
  - intros m ttl Hhit. rewrite countLikes_run, Hup. cbn [redis issue].
    by rewrite Hhit, JSON_parse_stringify.
Qed.

Lemma addLike_cache_delete_fails_witness :
  fst (AlbumLikesService.addLike "A" "user-1" "album-1" third_call_fails_world)
  = Throw RedisError /\
  fst (AlbumLikesService.countLikes "album-1"
         (snd (AlbumLikesService.addLike "A" "user-1" "album-1"
                 third_call_fails_world)))
  = Ok (AlbumLikesService.mkCount 0 true).
Proof.
  destruct (addLike_cache_delete_fails "A" "user-1" "album-1" (db sample_world)
              {[ "album-likes:album-1" := ("0", Some 1200%N) ]} [] [])
    as (Hfail & _ & _ & Hafter); [reflexivity|].
  split; [exact Hfail|].
  destruct Hafter as [_ Hstale]; [reflexivity|].
  exact (Hstale 0%N (Some 1200%N) eq_refl).
Defined.

(** X12.  Unlike undoes like: with a working network and the relation
    absent, [addLike] followed by [deleteLike] of the same pair both
    resolve and leave the store exactly as it was, with no entry cached
    for the album. *)
Theorem addLike_then_deleteLike (nid u a : string) (w : World) :
  calm w -> likes_of u a (db w) = [] ->
  exists id w1 w2,
    AlbumLikesService.addLike nid u a w = (Ok id, w1) /\
    AlbumLikesService.deleteLike u a w1 = (Ok tt, w2) /\
    db w2 = db w /\
    redis w2 !! AlbumLikesService.cache_key a = None.
Proof.
  intros Hcalm Hnone. rewrite addLike_calm, decide_True by done.
  do 3 eexists. split; [reflexivity|].
  rewrite deleteLike_calm by solve_calm. cbn [db].
  rewrite decide_False by (by rewrite likes_of_inserted).
  split; [reflexivity|]. cbn [db redis]. split; [|apply lookup_delete_eq].
  unfold delete_like. cbn [snd user_album_likes with_likes].
  rewrite filter_app, filter_cons, decide_False by (cbn; tauto).
  rewrite app_nil_r, filter_none_keeps_all by done. by destruct (db w).
Qed.

Lemma addLike_then_deleteLike_witness :
  exists w1 w2,
    AlbumLikesService.addLike "A" "user-1" "album-1" sample_world
    = (Ok "like-A", w1) /\
    AlbumLikesService.deleteLike "user-1" "album-1" w1 = (Ok tt, w2) /\
    db w2 = db sample_world.
Proof.
  destruct (addLike_then_deleteLike "A" "user-1" "album-1" sample_world)
    as (id & w1 & w2 & Hadd & Hdel & Hdb & _);
    [by repeat constructor | reflexivity |].
  exists w1, w2.
  assert (Hid : id = "like-A").
  { assert (Hrun : fst (AlbumLikesService.addLike "A" "user-1" "album-1"
                          sample_world) = Ok "like-A") by reflexivity.
    rewrite Hadd in Hrun. by injection Hrun. }
  subst id. by split_and!.
Defined.

(** ** Songs of a playlist *)

Section Members.
Import PlaylistsService.
Implicit Types (p s u nid : string) (w : World) (d : Db).

Lemma verifyPlaylistOwner_owner p u w pl :
  calm w -> playlists (db w) !! p = Some pl -> pl_owner pl = u ->
  verifyPlaylistOwner p u w = (Ok tt, issue (PgQuery (SelectPlaylistOwner p)) w).
Proof.
  intros Hcalm Hp Hu. rewrite verifyPlaylistOwner_up by by apply calm_link_up.
  by rewrite Hp, decide_True.
Qed.

Lemma insert_playlist_song_rows id p s d rows :
  fst (insert_playlist_song id p s d) = Ok rows -> rows = [id].
Proof.
  unfold insert_playlist_song. repeat case_match; cbn [fst]; by intros [=].
Qed.

(** A calm [addPlaylistSong] of the owner, along the answer of the
    insert. *)
Lemma addPlaylistSong_owner nid p s u w pl :
  calm w -> playlists (db w) !! p = Some pl -> pl_owner pl = u ->
  let id := "playlist-song-" ++ nid in
  let w3 := issue (PgQuery (SelectSongId s))
              (issue (PgQuery (SelectPlaylistId p))
                 (issue (PgQuery (SelectPlaylistOwner p)) w)) in
  addPlaylistSong nid p s u w =
    match songs (db w) !! s with
    | None => (Throw (NotFoundError "Lagu tidak ditemukan"), w3)
    | Some _ =>
        (match fst (insert_playlist_song id p s (db w)) with
         | Ok _ => Ok id
         | Throw e => Throw e
         end,
         {| db := snd (insert_playlist_song id p s (db w)); redis := redis w;
            faults := tail (faults w3);
            log := log w3 ++ [PgQuery (InsertPlaylistSong id p s)] |})
    end.
Proof.
  intros Hcalm Hp Hu id w3. unfold addPlaylistSong, bind.
  rewrite (verifyPlaylistOwner_owner p u w pl) by done.
  rewrite pool_query_up by (apply calm_link_up; solve_calm).
  unfold select_playlist_id. cbn [fst snd issue db]. rewrite Hp.
  cbn [length]. rewrite decide_False by done.
  rewrite pool_query_up by (apply calm_link_up; solve_calm).
  unfold select_song_id. cbn [fst snd issue db].
  destruct (songs (db w) !! s) as [song|]; cbn [length].
  2:{ rewrite decide_True by done. subst w3. by cbn. }
  rewrite decide_False by done.
  rewrite pool_query_up by (apply calm_link_up; solve_calm).
  cbn [fst snd issue db redis faults log]. fold id.
  pose proof (insert_playlist_song_rows id p s (db w)) as Hrows.
  destruct (insert_playlist_song id p s (db w)) as [[rows|e] d'];
    cbn [fst snd] in *; [|done].
  rewrite (Hrows rows eq_refl). by rewrite decide_False.
Qed.

Lemma members_of_inserted id p s d :
  members_of p s d = [] ->
  members_of p s (with_playlist_songs
                    (playlist_songs d ++ [mkPlaylistSong id p s]) d)
  = [mkPlaylistSong id p s].
Proof.
  unfold members_of. cbn [playlist_songs with_playlist_songs]. intros Hnone.
  by rewrite filter_app, Hnone, filter_cons, decide_True.
Qed.

Lemma with_playlist_songs_same d : with_playlist_songs (playlist_songs d) d = d.
Proof. by destruct d. Qed.

Lemma delete_playlist_song_absent p s d :
  members_of p s d = [] -> snd (delete_playlist_song p s d) = d.
Proof.
  unfold delete_playlist_song, members_of. cbn [snd]. intros Hnone.
  rewrite filter_none_keeps_all by done. apply with_playlist_songs_same.
Qed.

(** A calm [deletePlaylistSong] of the owner. *)
Lemma deletePlaylistSong_owner p s u w pl :
  calm w -> playlists (db w) !! p = Some pl -> pl_owner pl = u ->
  deletePlaylistSong p s u w =
    (if decide (members_of p s (db w) = [])
     then Throw (NotFoundError "Lagu tidak ditemukan dalam playlist")
     else Ok tt,
     {| db := snd (delete_playlist_song p s (db w)); redis := redis w;
        faults := tail (tail (faults w));
        log := log w ++ [PgQuery (SelectPlaylistOwner p);
                         PgQuery (DeletePlaylistSong p s)] |}).
Proof.
  intros Hcalm Hp Hu. unfold deletePlaylistSong, bind.
  rewrite (verifyPlaylistOwner_owner p u w pl) by done.
  rewrite pool_query_up by (apply calm_link_up; solve_calm).
  cbn [fst snd issue db redis faults log delete_playlist_song].
  rewrite <- !app_assoc. cbn [app].
  destruct (members_of p s (db w)) as [|m l]; cbn [fmap list_fmap length].
  - by rewrite !decide_True.
  - by rewrite !decide_False.
Qed.

End Members.

(** X13.  The owner adds a song: with a working network, when the song
    exists, is not yet in the playlist and the new row id is unused,
    [addPlaylistSong] resolves to the new id; the membership table is the
    old one followed by the new row, that row is the only one for the
    pair, and the service sent its three reads before the insert. *)
Theorem addPlaylistSong_adds (nid p s u : string) (w : World) (pl : Playlist) :
  calm w ->
  playlists (db w) !! p = Some pl -> pl_owner pl = u ->
  is_Some (songs (db w) !! s) ->
  members_of p s (db w) = [] ->
  "playlist-song-" ++ nid ∉ ps_id <$> playlist_songs (db w) ->
  let id := "playlist-song-" ++ nid in
  let out := PlaylistsService.addPlaylistSong nid p s u w in
  fst out = Ok id /\
  playlist_songs (db (snd out))
  = (playlist_songs (db w) ++ [mkPlaylistSong id p s])%list /\
  members_of p s (db (snd out)) = [mkPlaylistSong id p s] /\
  issued_since w (snd out)
  = [PgQuery (SelectPlaylistOwner p); PgQuery (SelectPlaylistId p);
     PgQuery (SelectSongId s); PgQuery (InsertPlaylistSong id p s)].
Proof.
  intros Hcalm Hp Hu [song Hs] Hnone Hfresh id out. subst out.
  rewrite (addPlaylistSong_owner nid p s u w pl) by done. rewrite Hs.
  unfold insert_playlist_song. fold id.
  rewrite decide_False, decide_True, Hp, Hs by done.
  cbn [fst snd db]. split_and!; [done|done|by apply members_of_inserted|].
  by calc_issued.
Qed.

Lemma addPlaylistSong_adds_witness :
  fst (PlaylistsService.addPlaylistSong "B" "playlist-1" "song-2" "user-1"
         sample_world)
  = Ok "playlist-song-B".
Proof.
  refine (proj1 (addPlaylistSong_adds "B" "playlist-1" "song-2" "user-1"
                   sample_world (mkPlaylist "Road trip" "user-1") _ _ _ _ _ _)).
  - by repeat constructor.
  - reflexivity.
  - reflexivity.
  - eexists. reflexivity.
  - reflexivity.
  - apply (bool_decide_unpack _). vm_compute. exact I.
Defined.

(** X14.  The owner adds a song that is already in the playlist: with a
    working network and an unused row id, [addPlaylistSong] rejects with
    the store's error for [unique_playlist_id_and_song_id], which is none
    of the service's own error kinds, and no table changes. *)
Theorem addPlaylistSong_taken (nid p s u : string) (w : World) (pl : Playlist) :
  calm w ->
  playlists (db w) !! p = Some pl -> pl_owner pl = u ->
  is_Some (songs (db w) !! s) ->
  members_of p s (db w) <> [] ->
  "playlist-song-" ++ nid ∉ ps_id <$> playlist_songs (db w) ->
  let out := PlaylistsService.addPlaylistSong nid p s u w in
  fst out = Throw (PgError (Some "unique_playlist_id_and_song_id")) /\
  ~ fails_conflict (fst out) /\
  db (snd out) = db w.
Proof.
  intros Hcalm Hp Hu [song Hs] Hsome Hfresh out. subst out.
  rewrite (addPlaylistSong_owner nid p s u w pl) by done. rewrite Hs.
  unfold insert_playlist_song.
  rewrite !decide_False by done. cbn [fst snd db].
  split_and!; [done| |done]. by intros [msg [=]].
Qed.

Lemma addPlaylistSong_taken_witness :
  fst (PlaylistsService.addPlaylistSong "B" "playlist-1" "song-1" "user-1"
         sample_world)
  = Throw (PgError (Some "unique_playlist_id_and_song_id")).
Proof.
  refine (proj1 (addPlaylistSong_taken "B" "playlist-1" "song-1" "user-1"
                   sample_world (mkPlaylist "Road trip" "user-1") _ _ _ _ _ _)).
  - by repeat constructor.
  - reflexivity.
  - reflexivity.
  - eexists. reflexivity.
  - discriminate.
  - apply (bool_decide_unpack _). vm_compute. exact I.
Defined.

(** X15.  The owner adds a song that does not exist: with a working
    network [addPlaylistSong] rejects with [NotFoundError] after its
    three reads; no insert is sent and no table changes. *)
Theorem addPlaylistSong_unknown_song
    (nid p s u : string) (w : World) (pl : Playlist) :
  calm w ->
  playlists (db w) !! p = Some pl -> pl_owner pl = u ->
  songs (db w) !! s = None ->
  let out := PlaylistsService.addPlaylistSong nid p s u w in
  fst out = Throw (NotFoundError "Lagu tidak ditemukan") /\
  db (snd out) = db w /\
  issued_since w (snd out)
  = [PgQuery (SelectPlaylistOwner p); PgQuery (SelectPlaylistId p);
     PgQuery (SelectSongId s)].
Proof.
  intros Hcalm Hp Hu Hs out. subst out.
  rewrite (addPlaylistSong_owner nid p s u w pl) by done. rewrite Hs.
  cbn [fst snd]. split_and!; [done..|]. by calc_issued.
Qed.

Lemma addPlaylistSong_unknown_song_witness :
  fst (PlaylistsService.addPlaylistSong "B" "playlist-1" "song-404" "user-1"
         sample_world)
  = Throw (NotFoundError "Lagu tidak ditemukan").
Proof.
  refine (proj1 (addPlaylistSong_unknown_song "B" "playlist-1" "song-404"
                   "user-1" sample_world (mkPlaylist "Road trip" "user-1")
                   _ _ _ _)).
  - by repeat constructor.
  - reflexivity.
  - reflexivity.
  - reflexivity.
Defined.

(** X16.  Removing undoes adding: after a successful [addPlaylistSong]
    the owner's [deletePlaylistSong] of the same song resolves and the
    store is exactly as it was before the song was added. *)
Theorem addPlaylistSong_then_deletePlaylistSong
    (nid p s u : string) (w : World) (pl : Playlist) :
  calm w ->
  playlists (db w) !! p = Some pl -> pl_owner pl = u ->
  is_Some (songs (db w) !! s) ->
  members_of p s (db w) = [] ->
  "playlist-song-" ++ nid ∉ ps_id <$> playlist_songs (db w) ->
  let added := snd (PlaylistsService.addPlaylistSong nid p s u w) in
  let out := PlaylistsService.deletePlaylistSong p s u added in
  fst out = Ok tt /\ db (snd out) = db w.
Proof.
  intros Hcalm Hp Hu [song Hs] Hnone Hfresh added out. subst out added.
  rewrite (addPlaylistSong_owner nid p s u w pl) by done. rewrite Hs.
  unfold insert_playlist_song.
  rewrite decide_False, decide_True, Hp, Hs by done. cbn [fst snd].
  rewrite (deletePlaylistSong_owner p s u _ pl); [|solve_calm|done..].
  cbn [fst snd db].
  rewrite decide_False by (by rewrite members_of_inserted).
  split; [done|]. unfold delete_playlist_song.
  cbn [snd playlist_songs with_playlist_songs].
  rewrite filter_app, filter_cons, decide_False by (cbn; tauto).
  rewrite app_nil_r, filter_none_keeps_all by done. by destruct (db w).
Qed.

Lemma addPlaylistSong_then_deletePlaylistSong_witness :
  db (snd (PlaylistsService.deletePlaylistSong "playlist-1" "song-2" "user-1"
             (snd (PlaylistsService.addPlaylistSong "B" "playlist-1" "song-2"
                     "user-1" sample_world))))
  = db sample_world.
Proof.
  refine (proj2 (addPlaylistSong_then_deletePlaylistSong "B" "playlist-1"
                   "song-2" "user-1" sample_world
                   (mkPlaylist "Road trip" "user-1") _ _ _ _ _ _)).
  - by repeat constructor.
  - reflexivity.
  - reflexivity.
  - eexists. reflexivity.
  - reflexivity.
  - apply (bool_decide_unpack _). vm_compute. exact I.
Defined.

(** X17.  The owner removes a song: with a working network
    [deletePlaylistSong] rejects with [NotFoundError] and changes no
    table when the song is not in the playlist; otherwise it resolves,
    the pair has no row left and the rows of every other pair are kept
    in order. *)
Theorem deletePlaylistSong_removes (p s u : string) (w : World) (pl : Playlist) :
  calm w ->
  playlists (db w) !! p = Some pl -> pl_owner pl = u ->
  let out := PlaylistsService.deletePlaylistSong p s u w in
  (members_of p s (db w) = [] ->
     fails_not_found (fst out) /\ db (snd out) = db w) /\
  (members_of p s (db w) <> [] ->
     fst out = Ok tt /\
     members_of p s (db (snd out)) = [] /\
     forall p' s', (p', s') <> (p, s) ->
       members_of p' s' (db (snd out)) = members_of p' s' (db w)).
Proof.
  intros Hcalm Hp Hu out. subst out.
  rewrite (deletePlaylistSong_owner p s u w pl) by done. cbn [fst snd db].
  split.
  - intros Hnone. rewrite decide_True by done.
    split; [by eexists|by apply delete_playlist_song_absent].
  - intros Hsome. rewrite decide_False by done. split_and!; [done| |].
    + unfold delete_playlist_song, members_of.
      cbn [snd playlist_songs with_playlist_songs].
      induction (playlist_songs (db w)) as [|r l IH]; [done|].
      rewrite filter_cons. case_decide as Hr; [|done].
      by rewrite filter_cons, decide_False.
    + intros p' s' Hne. unfold delete_playlist_song, members_of.
      cbn [snd playlist_songs with_playlist_songs].
      induction (playlist_songs (db w)) as [|r l IH]; [done|].
      rewrite !filter_cons.
      destruct (decide (ps_playlist r = p' /\ ps_song r = s')) as [[Hp' Hs']|Hr].
      * rewrite decide_True by (intros [? ?]; apply Hne; congruence).
        rewrite filter_cons, decide_True by done. by f_equal.
      * case_decide; [|done]. by rewrite filter_cons, decide_False.
Qed.

Lemma deletePlaylistSong_removes_witness :
  fst (PlaylistsService.deletePlaylistSong "playlist-1" "song-1" "user-1"
         sample_world) = Ok tt /\
  fails_not_found
    (fst (PlaylistsService.deletePlaylistSong "playlist-1" "song-2" "user-1"
            sample_world)).
Proof.
  split.
  - refine (proj1 (proj2 (deletePlaylistSong_removes "playlist-1" "song-1"
                            "user-1" sample_world
                            (mkPlaylist "Road trip" "user-1") _ _ _) _));
      [by repeat constructor|reflexivity|reflexivity|discriminate].
  - refine (proj1 (proj1 (deletePlaylistSong_removes "playlist-1" "song-2"
                            "user-1" sample_world
                            (mkPlaylist "Road trip" "user-1") _ _ _) _));
      [by repeat constructor|reflexivity|reflexivity|reflexivity].
Defined.

(** ** Deleting a playlist *)

(** A calm [deletePlaylistById] of the owner. *)
Lemma deletePlaylistById_owner (p u : string) (w : World) (pl : Playlist) :
  calm w -> playlists (db w) !! p = Some pl -> pl_owner pl = u ->
  PlaylistsService.deletePlaylistById p u w
  = (Ok tt,
     {| db := {| user_album_likes := user_album_likes (db w);
                 playlists := delete p (playlists (db w));
                 songs := songs (db w); users := users (db w);
                 playlist_songs :=
                   filter (fun r => ps_playlist r <> p) (playlist_songs (db w));
                 playlist_song_activities :=
                   filter (fun a => act_playlist a <> p)
                          (playlist_song_activities (db w)) |};
        redis := redis w; faults := tail (tail (faults w));
        log := log w ++ [PgQuery (SelectPlaylistOwner p);
                         PgQuery (DeletePlaylist p)] |}).
Proof.
  intros Hcalm Hp Hu. unfold PlaylistsService.deletePlaylistById, bind.
  rewrite (verifyPlaylistOwner_owner p u w pl) by done.
  rewrite pool_query_up by (apply calm_link_up; solve_calm).
  unfold delete_playlist. cbn [issue db]. rewrite Hp.
  cbn [fst snd length]. rewrite decide_False by done.
  unfold ret. cbn [issue redis faults log]. by rewrite <- app_assoc.
Qed.

(** X18.  The owner deletes a playlist: with a working network
    [deletePlaylistById] resolves, the playlist row is gone, exactly the
    memberships and activity records of that playlist are gone with it,
    and songs, users and likes are untouched.  Afterwards the gate
    rejects everyone with [NotFoundError], and so does a second
    delete. *)
Theorem deletePlaylistById_cascades (p u : string) (w : World) (pl : Playlist) :
  calm w ->
  playlists (db w) !! p = Some pl -> pl_owner pl = u ->
  let out := PlaylistsService.deletePlaylistById p u w in
  fst out = Ok tt /\
  playlists (db (snd out)) = delete p (playlists (db w)) /\
  (forall r, r ∈ playlist_songs (db (snd out)) <->
             r ∈ playlist_songs (db w) /\ ps_playlist r <> p) /\
  (forall a, a ∈ playlist_song_activities (db (snd out)) <->
             a ∈ playlist_song_activities (db w) /\ act_playlist a <> p) /\
  (songs (db (snd out)) = songs (db w) /\ users (db (snd out)) = users (db w) /\
   user_album_likes (db (snd out)) = user_album_likes (db w)) /\
  (forall u',
      fails_not_found (fst (PlaylistsService.verifyPlaylistOwner p u' (snd out))) /\
      fails_not_found (fst (PlaylistsService.deletePlaylistById p u' (snd out)))).
Proof.
  intros Hcalm Hp Hu out. subst out.
  rewrite (deletePlaylistById_owner p u w pl) by done. cbn [fst snd db].
  cbn [playlists playlist_songs playlist_song_activities songs users
       user_album_likes].
  split_and!; [done|done| | |done|done|done|].
  - intros r. rewrite list_elem_of_filter. tauto.
  - intros a. rewrite list_elem_of_filter. tauto.
  - intros u'. set (w' := {| db := _ |}).
    assert (Hgate : fails_not_found
                      (fst (PlaylistsService.verifyPlaylistOwner p u' w'))).
    { rewrite verifyPlaylistOwner_up by (apply calm_link_up; subst w'; solve_calm).
      subst w'. cbn [fst db playlists]. rewrite lookup_delete_eq. by eexists. }
    split; [exact Hgate|].
    unfold PlaylistsService.deletePlaylistById, bind.
    destruct Hgate as [msg Hmsg].
    destruct (PlaylistsService.verifyPlaylistOwner p u' w') as [res w''].
    cbn [fst] in Hmsg. subst res. by eexists.
Qed.

Lemma deletePlaylistById_cascades_witness :
  fst (PlaylistsService.deletePlaylistById "playlist-1" "user-1" sample_world)
  = Ok tt /\
  fails_not_found
    (fst (PlaylistsService.verifyPlaylistOwner "playlist-1" "user-1"
            (snd (PlaylistsService.deletePlaylistById "playlist-1" "user-1"
                    sample_world)))).
Proof.
  destruct (deletePlaylistById_cascades "playlist-1" "user-1" sample_world
              (mkPlaylist "Road trip" "user-1"))
    as (Hok & _ & _ & _ & _ & Hafter);
    [by repeat constructor|reflexivity|reflexivity|].
  split; [exact Hok | exact (proj1 (Hafter "user-1"))].
Defined.

(** ** The guide's services *)

Section GuideServices.
Implicit Types (p s u a nid : string) (w : World).

Lemma guide_addLike_calm nid a u w :
  calm w -> likes_of u a (db w) = [] ->
  Guide.AlbumLikesService.addLike nid a u w
  = (Ok ("like-" ++ nid),
     {| db := with_likes (user_album_likes (db w)
                            ++ [mkLike ("like-" ++ nid) u a]) (db w);
        redis := delete (Guide.AlbumLikesService.cache_key a) (redis w);
        faults := tail (tail (faults w));
        log := log w ++ [PgQuery (InsertLike ("like-" ++ nid) u a);
                         RedisDel (Guide.AlbumLikesService.cache_key a)] |}).
Proof.
  intros Hcalm Hnone. rewrite guide_addLike_run.
  rewrite !calm_link_up, decide_True by solve_calm.
  cbn [db faults log]. by rewrite <- app_assoc.
Qed.

Lemma guide_deleteLike_calm a u w :
  calm w ->
  GuideRest.AlbumLikesService.deleteLike a u w =
    if decide (likes_of u a (db w) = []) then
      (Throw (InvariantError "Failed to unlike album"),
       issue (PgQuery (DeleteLike u a)) w)
    else
      (Ok tt,
       {| db := snd (delete_like u a (db w));
          redis := delete (Guide.AlbumLikesService.cache_key a) (redis w);
          faults := tail (tail (faults w));
          log := log w ++ [PgQuery (DeleteLike u a);
                           RedisDel (Guide.AlbumLikesService.cache_key a)] |}).
Proof.
  intros Hcalm. unfold GuideRest.AlbumLikesService.deleteLike, bind.
  rewrite pool_query_up by by apply calm_link_up.
  cbn [fst snd delete_like].
  destruct (decide (likes_of u a (db w) = [])) as [Hnone|Hsome].
  - rewrite Hnone. cbn [fmap list_fmap length]. rewrite decide_True by done.
    unfold throw. f_equal.
    change (with_likes _ (db w)) with (snd (delete_like u a (db w))).
    rewrite delete_like_absent by done. by destruct w.
  - destruct (likes_of u a (db w)) as [|r l]; [done|].
    cbn [fmap list_fmap length]. rewrite decide_False by done.
    rewrite cache_delete_up by (apply calm_link_up; solve_calm).
    cbn [db redis faults log]. by rewrite <- app_assoc.
Qed.

Lemma guide_check_calm a u w :
  calm w ->
  GuideRest.AlbumLikesService.checkUserLikedAlbum a u w
  = (Ok (bool_decide (likes_of u a (db w) <> [])),
     issue (PgQuery (SelectLike u a)) w).
Proof.
  intros Hcalm. unfold GuideRest.AlbumLikesService.checkUserLikedAlbum, bind.
  rewrite pool_query_up by by apply calm_link_up.
  cbn [fst snd select_like]. unfold ret.
  destruct (likes_of u a (db w)) as [|r l]; cbn [fmap list_fmap length].
  - rewrite bool_decide_eq_false_2 by lia.
    rewrite bool_decide_eq_false_2 by (by intros []). by destruct w.
  - rewrite bool_decide_eq_true_2 by lia.
    rewrite bool_decide_eq_true_2 by done. by destruct w.
Qed.

End GuideServices.

(** X19.  The guide's like toggle, with a working network and the
    relation absent: [checkUserLikedAlbum] resolves to false; after
    [addLike] it resolves to true; after [deleteLike] it resolves to
    false again and the store is as at the start.  A [deleteLike] of an
    absent relation rejects with [InvariantError], not [NotFoundError],
    and changes nothing. *)
Theorem guide_like_toggle (nid a u : string) (w : World) :
  calm w -> likes_of u a (db w) = [] ->
  let liked := snd (Guide.AlbumLikesService.addLike nid a u w) in
  let unliked := snd (GuideRest.AlbumLikesService.deleteLike a u liked) in
  fst (GuideRest.AlbumLikesService.checkUserLikedAlbum a u w) = Ok false /\
  fst (GuideRest.AlbumLikesService.checkUserLikedAlbum a u liked) = Ok true /\
  fst (GuideRest.AlbumLikesService.deleteLike a u liked) = Ok tt /\
  fst (GuideRest.AlbumLikesService.checkUserLikedAlbum a u unliked) = Ok false /\
  db unliked = db w /\
  (fails_conflict (fst (GuideRest.AlbumLikesService.deleteLike a u w)) /\
   db (snd (GuideRest.AlbumLikesService.deleteLike a u w)) = db w /\
   redis (snd (GuideRest.AlbumLikesService.deleteLike a u w)) = redis w).
Proof.
  intros Hcalm Hnone liked unliked. subst unliked liked.
  rewrite guide_addLike_calm by done. cbn [snd].
  set (w1 := {| db := _ |}).
  assert (Hcalm1 : calm w1) by (subst w1; solve_calm).
  assert (Hone : likes_of u a (db w1) = [mkLike ("like-" ++ nid) u a])
    by (by apply likes_of_inserted).
  rewrite (guide_deleteLike_calm a u w1) by done.
  rewrite decide_False by (by rewrite Hone). cbn [fst snd].
  set (w2 := {| db := snd _ |}).
  assert (Hdb : db w2 = db w).
  { subst w2 w1. cbn [db]. unfold delete_like.
    cbn [snd user_album_likes with_likes].
    rewrite filter_app, filter_cons, decide_False by (cbn; tauto).
    rewrite app_nil_r, filter_none_keeps_all by done. by destruct (db w). }
  rewrite !guide_check_calm by (done || (subst w2 w1; solve_calm)).
  rewrite Hdb, Hone, Hnone. cbn [fst].
  rewrite (guide_deleteLike_calm a u w), decide_True by done. cbn [fst snd].
  split_and!; try done. by eexists.
Qed.

Lemma guide_like_toggle_witness :
  fst (GuideRest.AlbumLikesService.checkUserLikedAlbum "album-1" "user-1"
         (snd (Guide.AlbumLikesService.addLike "A" "album-1" "user-1"
                 sample_world)))
  = Ok true.
Proof.
  refine (proj1 (proj2 (guide_like_toggle "A" "album-1" "user-1" sample_world
                          _ _))).
  - by repeat constructor.
  - reflexivity.
Defined.

Section GuidePlaylists.
Implicit Types (p s nid : string) (w : World).

(** A calm [addSongToPlaylist] for an existing song, along the answer of
    the insert. *)
Lemma guide_addSongToPlaylist_calm nid p s w :
  calm w -> is_Some (songs (db w) !! s) ->
  let id := "playlistsong-" ++ nid in
  Guide.PlaylistsService.addSongToPlaylist nid p s w
  = (match fst (insert_playlist_song id p s (db w)) with
     | Ok _ => Ok id
     | Throw e =>
         if decide (constraint_of e = Some "unique_playlist_id_and_song_id")
         then Throw (InvariantError "Song already exists in playlist")
         else Throw e
     end,
     {| db := snd (insert_playlist_song id p s (db w)); redis := redis w;
        faults := tail (tail (faults w));
        log := log w ++ [PgQuery (SelectSongId s);
                         PgQuery (InsertPlaylistSong id p s)] |}).
Proof.
  intros Hcalm [song Hs] id.
  unfold Guide.PlaylistsService.addSongToPlaylist, bind, try_catch.
  rewrite pool_query_up by by apply calm_link_up.
  unfold select_song_id. cbn [fst snd]. rewrite Hs. cbn [length].
  rewrite decide_False by done.
  rewrite pool_query_up by (apply calm_link_up; solve_calm).
  cbn [fst snd db redis faults log]. fold id. rewrite <- app_assoc.
  pose proof (insert_playlist_song_rows id p s (db w)) as Hrows.
  destruct (insert_playlist_song id p s (db w)) as [[rows|e] d'];
    cbn [fst snd] in *.
  - by rewrite (Hrows rows eq_refl).
  - by case_decide.
Qed.

Lemma guide_deleteSongFromPlaylist_calm p s w :
  calm w ->
  GuideRest.PlaylistsService.deleteSongFromPlaylist p s w
  = (if decide (members_of p s (db w) = [])
     then Throw (InvariantError "Failed to delete song from playlist")
     else Ok tt,
     {| db := snd (delete_playlist_song p s (db w)); redis := redis w;
        faults := tail (faults w);
        log := log w ++ [PgQuery (DeletePlaylistSong p s)] |}).
Proof.
  intros Hcalm. unfold GuideRest.PlaylistsService.deleteSongFromPlaylist, bind.
  rewrite pool_query_up by by apply calm_link_up.
  cbn [fst snd delete_playlist_song].
  destruct (members_of p s (db w)) as [|m l]; cbn [fmap list_fmap length].
  - by rewrite !decide_True.
  - by rewrite !decide_False.
Qed.

End GuidePlaylists.

(** X20.  The guide's membership round trip, with a working network: for
    an existing playlist and song, a pair not yet stored and an unused
    row id, [addSongToPlaylist] resolves to the new id, a second add of
    the pair rejects with the conflict error, and
    [deleteSongFromPlaylist] then resolves and leaves the store as it was
    at the start.  Removing a song that is not in the playlist rejects
    with [InvariantError] and changes nothing. *)
Theorem guide_membership_round_trip (nid nid' p s : string) (w : World) :
  calm w ->
  is_Some (playlists (db w) !! p) -> is_Some (songs (db w) !! s) ->
  members_of p s (db w) = [] ->
  "playlistsong-" ++ nid ∉ ps_id <$> playlist_songs (db w) ->
  "playlistsong-" ++ nid' ∉ ps_id <$> playlist_songs (db w) -> nid' <> nid ->
  let added := snd (Guide.PlaylistsService.addSongToPlaylist nid p s w) in
  let removed := GuideRest.PlaylistsService.deleteSongFromPlaylist p s added in
  fst (Guide.PlaylistsService.addSongToPlaylist nid p s w)
  = Ok ("playlistsong-" ++ nid) /\
  fst (Guide.PlaylistsService.addSongToPlaylist nid' p s added)
  = Throw (InvariantError "Song already exists in playlist") /\
  fst removed = Ok tt /\ db (snd removed) = db w /\
  (fails_conflict (fst (GuideRest.PlaylistsService.deleteSongFromPlaylist p s w)) /\
   db (snd (GuideRest.PlaylistsService.deleteSongFromPlaylist p s w)) = db w).
Proof.
  intros Hcalm [pl Hp] [song Hs] Hnone Hfresh Hfresh' Hnid added removed.
  subst removed added.
  rewrite (guide_addSongToPlaylist_calm nid p s w) by (done || by eexists).
  assert (Hins : insert_playlist_song ("playlistsong-" ++ nid) p s (db w)
                 = (Ok ["playlistsong-" ++ nid],
                    with_playlist_songs
                      (playlist_songs (db w)
                         ++ [mkPlaylistSong ("playlistsong-" ++ nid) p s]) (db w))).
  { unfold insert_playlist_song.
    by rewrite decide_False, decide_True, Hp, Hs by done. }
  rewrite Hins. cbn [fst snd]. set (w1 := {| db := with_playlist_songs _ _ |}).
  assert (Hcalm1 : calm w1) by (subst w1; solve_calm).
  assert (Hone : members_of p s (db w1)
                 = [mkPlaylistSong ("playlistsong-" ++ nid) p s])
    by (by apply members_of_inserted).
  rewrite (guide_addSongToPlaylist_calm nid' p s w1) by (done || by eexists).
  rewrite (guide_deleteSongFromPlaylist_calm p s w1) by done.
  rewrite (guide_deleteSongFromPlaylist_calm p s w) by done.
  cbn [fst snd db].
  rewrite (decide_False (P := members_of p s (db w1) = [])) by (by rewrite Hone).
  rewrite (decide_True (P := members_of p s (db w) = [])) by done.
  split_and!; [done| |done| |by eexists|by apply delete_playlist_song_absent].
  - unfold insert_playlist_song. subst w1.
    cbn [db playlist_songs with_playlist_songs].
    rewrite decide_False.
    2:{ rewrite fmap_app, elem_of_app. intros [Hin|Hin]; [done|].
        apply list_elem_of_singleton in Hin. cbn in Hin.
        apply Hnid. by simplify_eq. }
    fold (members_of p s
            (with_playlist_songs
               (playlist_songs (db w)
                  ++ [mkPlaylistSong ("playlistsong-" ++ nid) p s]) (db w))).
    rewrite members_of_inserted by done.
    rewrite decide_False by done. cbn [fst constraint_of].
    by rewrite decide_True.
  - subst w1. unfold delete_playlist_song.
    cbn [snd db playlist_songs with_playlist_songs].
    rewrite filter_app, filter_cons, decide_False by (cbn; tauto).
    rewrite app_nil_r, filter_none_keeps_all by done. by destruct (db w).
Qed.

Lemma guide_membership_round_trip_witness :
  fst (Guide.PlaylistsService.addSongToPlaylist "B" "playlist-1" "song-2"
         sample_world)
  = Ok "playlistsong-B" /\
  db (snd (GuideRest.PlaylistsService.deleteSongFromPlaylist "playlist-1" "song-2"
             (snd (Guide.PlaylistsService.addSongToPlaylist "B" "playlist-1"
                     "song-2" sample_world))))
  = db sample_world.
Proof.
  destruct (guide_membership_round_trip "B" "C" "playlist-1" "song-2" sample_world)
    as (Hadd & _ & _ & Hdb & _).
  - by repeat constructor.
  - eexists. reflexivity.
  - eexists. reflexivity.
  - reflexivity.
  - apply (bool_decide_unpack _). vm_compute. exact I.
  - apply (bool_decide_unpack _). vm_compute. exact I.
  - discriminate.
  - split; [exact Hadd | exact Hdb].
Defined.



(** ** The likes handler *)

Section Handler.
Context {Album : Type} (getAlbumById : string -> M Album).
Implicit Types (a u nid : string) (w : World).

Lemma getLikesHandler_found a w album w1 :
  getAlbumById a w = (Ok album, w1) -> calm w1 ->
  getLikesHandler getAlbumById a w =
    match redis w1 !! AlbumLikesService.cache_key a
          ≫= (fun e => JSON_parse (fst e)) with
    | Some m =>
        (Ok {| status := "success"; message := None; data_likes := Some m;
               code := Some 200; headers := [("X-Data-Source", "cache")] |},
         issue (RedisGet (AlbumLikesService.cache_key a)) w1)
    | None =>
        (Ok {| status := "success"; message := None;
               data_likes := Some (like_count a (db w1));
               code := Some 200; headers := [] |},
         snd (AlbumLikesService.countLikes a w1))
    end.
Proof.
  intros Hfound Hcalm. unfold getLikesHandler, bind. rewrite Hfound.
  rewrite countLikes_calm by done. by destruct (_ ≫= _).
Qed.

End Handler.



(** X23.  A like seen through the handlers.  Suppose the album lookup
    resolves for the album and leaves store, cache and the calm of the
    network as they are.  With a working network and a user who has not
    liked the album, [postLikeHandler] replies with code 201; the next
    [getLikesHandler] replies with the store's count, one more than
    before, and without the cache header; the one after that replies
    with the same count and with the header X-Data-Source: cache. *)
Theorem like_then_read_twice {Album : Type} (getAlbumById : string -> M Album)
    (nid a u : string) (w : World) :
  (forall w0, calm w0 ->
     exists album w1, getAlbumById a w0 = (Ok album, w1) /\
                      db w1 = db w0 /\ redis w1 = redis w0 /\ calm w1) ->
  calm w -> likes_of u a (db w) = [] ->
  exists posted w1 first w2 second w3,
    postLikeHandler getAlbumById nid a u w = (Ok posted, w1) /\
    code posted = Some 201 /\
    getLikesHandler getAlbumById a w1 = (Ok first, w2) /\
    data_likes first = Some (like_count a (db w) + 1)%N /\
    headers first = [] /\
    getLikesHandler getAlbumById a w2 = (Ok second, w3) /\
    data_likes second = Some (like_count a (db w) + 1)%N /\
    headers second = [("X-Data-Source", "cache")].
Proof.
  intros Halbum Hcalm Hnone.
  destruct (Halbum w Hcalm) as (al0 & v0 & Hget0 & Hdb0 & Hredis0 & Hcalm0).
  unfold postLikeHandler, bind. rewrite Hget0.
  rewrite addLike_calm by done. rewrite Hdb0, decide_True by done.
  set (w1 := {| db := with_likes _ _ |}).
  assert (Hcalm1 : calm w1) by (subst w1; solve_calm).
  destruct (Halbum w1 Hcalm1) as (al1 & v1 & Hget1 & Hdb1 & Hredis1 & Hcalm1').
  assert (Hcount1 : like_count a (db v1) = (like_count a (db w) + 1)%N).
  { rewrite Hdb1. subst w1. cbn [db]. apply like_count_insert_same. }
  assert (Hmiss1 : redis v1 !! AlbumLikesService.cache_key a = None).
  { rewrite Hredis1. subst w1. cbn [redis]. apply lookup_delete_eq. }
  pose proof (getLikesHandler_found getAlbumById a w1 al1 v1 Hget1 Hcalm1')
    as Hfirst.
  rewrite Hmiss1 in Hfirst. cbn [mbind option_bind] in Hfirst.
  set (w2 := snd (AlbumLikesService.countLikes a v1)) in *.
  assert (Hw2 : calm w2 /\ db w2 = db v1 /\
                redis w2 !! AlbumLikesService.cache_key a
                = Some (JSON_stringify (like_count a (db v1)), Some 3600%N)).
  { subst w2. rewrite countLikes_calm, Hmiss1 by done.
    cbn [mbind option_bind snd db redis]. split_and!; [solve_calm|done|].
    apply lookup_insert_eq. }
  destruct Hw2 as (Hcalm2 & Hdb2 & Hhit2).
  destruct (Halbum w2 Hcalm2) as (al2 & v2 & Hget2 & Hdb2' & Hredis2 & Hcalm2').
  pose proof (getLikesHandler_found getAlbumById a w2 al2 v2 Hget2 Hcalm2')
    as Hsecond.
  rewrite Hredis2, Hhit2 in Hsecond. cbn [mbind option_bind fst] in Hsecond.
  rewrite JSON_parse_stringify in Hsecond.
  do 6 eexists. split; [reflexivity|]. split; [done|].
  split; [exact Hfirst|]. cbn [data_likes headers].
  split; [by rewrite Hcount1|]. split; [done|].
  split; [exact Hsecond|]. cbn [data_likes headers].
  by rewrite Hcount1.
Qed.

Lemma like_then_read_twice_witness :
  exists posted w1 first w2 second w3,
    postLikeHandler (fun _ => ret tt) "B" "album-1" "user-2" liked_world
    = (Ok posted, w1) /\
    getLikesHandler (fun _ => ret tt) "album-1" w1 = (Ok first, w2) /\
    data_likes first = Some 2%N /\ headers first = [] /\
    getLikesHandler (fun _ => ret tt) "album-1" w2 = (Ok second, w3) /\
    data_likes second = Some 2%N /\
    headers second = [("X-Data-Source", "cache")].
Proof.
  destruct (like_then_read_twice (fun _ => ret tt) "B" "album-1" "user-2"
              liked_world)
    as (posted & w1 & first & w2 & second & w3
        & Hpost & _ & Hfirst & Hn1 & Hh1 & Hsecond & Hn2 & Hh2).
  - intros w0 Hcalm0. by exists tt, w0.
  - by repeat constructor.
  - reflexivity.
  - exists posted, w1, first, w2, second, w3. by split_and!.
Defined.

(** ** What the methods leave alone *)

Section Untouched.
Implicit Types (u a nid : string) (w : World) (d : Db).

Lemma likes_of_insert_pair id u a u' a' d :
  (u', a') <> (u, a) ->
  likes_of u' a' (with_likes (user_album_likes d ++ [mkLike id u a]) d)
  = likes_of u' a' d.
Proof.
  intros Hne. unfold likes_of. cbn [user_album_likes with_likes].
  rewrite filter_app, filter_cons, decide_False
    by (cbn; intros [? ?]; apply Hne; congruence).
  by rewrite app_nil_r.
Qed.

Lemma likes_of_delete_pair u a u' a' d :
  (u', a') <> (u, a) ->
  likes_of u' a' (snd (delete_like u a d)) = likes_of u' a' d.
Proof.
  intros Hne. unfold likes_of, delete_like.
  cbn [snd user_album_likes with_likes].
  induction (user_album_likes d) as [|r l IH]; [done|].
  rewrite !filter_cons.
  destruct (decide (like_user r = u' /\ like_album r = a')) as [[Hu Ha]|Hr].
  - rewrite decide_True by (intros [? ?]; apply Hne; congruence).
    rewrite filter_cons, decide_True by done. by f_equal.
  - case_decide; [|done]. by rewrite filter_cons, decide_False.
Qed.

End Untouched.

(** X24.  A toggle touches its own pair only: whatever the network does
    and however the call ends, [addLike] and [deleteLike] for (u, a)
    leave the like rows of every other (user, album) pair as they were,
    and leave playlists, songs, users, memberships and activity records
    alone. *)
Theorem toggle_touches_own_pair (nid u a : string) (w : World) :
  let others_kept (w' : World) :=
    (forall u' a', (u', a') <> (u, a) ->
       likes_of u' a' (db w') = likes_of u' a' (db w)) /\
    playlists (db w') = playlists (db w) /\ songs (db w') = songs (db w) /\
    users (db w') = users (db w) /\
    playlist_songs (db w') = playlist_songs (db w) /\
    playlist_song_activities (db w') = playlist_song_activities (db w) in
  others_kept (snd (AlbumLikesService.addLike nid u a w)) /\
  others_kept (snd (AlbumLikesService.deleteLike u a w)).
Proof.
  cbv zeta. rewrite addLike_run, deleteLike_run. split.
  - repeat case_match; cbn [snd issue db]; split_and!; try done.
    all: intros u' a' Hne; by apply likes_of_insert_pair.
  - repeat case_match; cbn [snd issue db]; split_and!; try done.
    all: intros u' a' Hne; by apply likes_of_delete_pair.
Qed.


